(** * BED file parsing of [input.h]: line reader and region aggregation

    A shallow embedding of [LineByLineReader] and [read_points_from_bed_file]
    from [src/input.h], and the properties of the region aggregation that
    follow from the code.

    Conventions of the embedding:
    - a [FILE] is what successive [getline] calls will deliver: finitely
      many lines, then either clean end-of-file or an I/O failure;
    - C++ exceptions are values of [exception]; a computation ends in an
      [outcome]: it returns, throws, or has undefined behaviour (signed
      overflow);
    - [std::size_t] is a [Z] reduced modulo [2 ^ size_bits];
    - the helpers of [utils.h] and the integer widths are collected in the
      class [Utils]; the definitions and theorems of the parser are
      parametric in it, and [spec_utils] is one instance to run them with. *)

From Stdlib Require Import ZArith List String Ascii Bool Lia.
From Stdlib Require Import Sorted Permutation DecimalString.
Import ListNotations.

Local Open Scope string_scope.
Local Open Scope Z_scope.

(** ** Exceptions and outcomes *)

(** The two exception classes that the code under [try] can throw.
    [std::system_error] is derived from [std::runtime_error]. *)
Inductive exception : Type :=
| runtime_error (what_arg : string)
| system_error (errno : Z).

Inductive outcome (A : Type) : Type :=
| Return (a : A)
| Throw (e : exception)
| Undefined.

Arguments Return {A} a.
Arguments Throw {A} e.
Arguments Undefined {A}.

Definition bind {A B : Type} (m : outcome A) (k : A -> outcome B) : outcome B :=
  match m with
  | Return a => k a
  | Throw e => Throw e
  | Undefined => Undefined
  end.

Declare Scope outcome_scope.
Delimit Scope outcome_scope with outcome.
Notation "x <- m ;; k" := (bind m (fun x => k))
  (at level 61, m at next level, right associativity) : outcome_scope.
Local Open Scope outcome_scope.

(** The messages of the [std::runtime_error]s thrown by the parser itself,
    named after the failure they report. *)
Definition MalformedLine : exception :=
  runtime_error "Line must contain at least 3 fields: (region, start, end)".
Definition InvalidInterval : exception :=
  runtime_error "interval bounds are invalid".
Definition EmptyRegionName : exception :=
  runtime_error "empty string as a region name".
Definition NoCurrentLine : exception :=
  runtime_error "LineByLineReader: no line data available".

(** ** The input stream *)

Inductive stream_end : Type :=
| clean_eof
| io_failure (errno : Z).

(** The lines still to be read (each with its terminator, if it has one),
    and how the stream ends after them. *)
Record FILE : Type := mkFILE {
  pending : list string;
  finish : stream_end
}.

(** What one call of [::getline] reports: a line ([r >= 0]), end of file
    ([r < 0] with [feof] set) or a failure ([r < 0], [errno] set). *)
Inductive getline_result : Type :=
| got_line (l : string)
| at_eof
| failed (errno : Z).

Definition end_result (e : stream_end) : getline_result :=
  match e with
  | clean_eof => at_eof
  | io_failure c => failed c
  end.

Definition getline (f : FILE) : getline_result * FILE :=
  match pending f with
  | l :: rest => (got_line l, mkFILE rest (finish f))
  | [] => (end_result (finish f), f)
  end.

(** ** Points, sorted vectors and regions ([types.h]) *)

(** [Point] is declared in [types.h]; a point is built from the integer
    expression of line 149 and is taken to be an integer of that type. *)
Definition Point : Type := Z.

Fixpoint insert_sorted (p : Point) (l : list Point) : list Point :=
  match l with
  | [] => [p]
  | q :: l' => if p <=? q then p :: q :: l' else q :: insert_sorted p l'
  end.

Record SortedVec : Type := mkSortedVec { sorted_points : list Point }.

(** Modelled from the spec: [SortedVec<Point>::from_unsorted] is defined in
    [types.h], which is not part of the sources.  The spec describes it as
    building an ascending-sorted sequence from an unsorted working sequence;
    on integers every sorting algorithm returns the same sequence, here it
    is computed by insertion. *)
Definition from_unsorted (points : list Point) : SortedVec :=
  mkSortedVec (fold_right insert_sorted [] points).

(** [ProcessRegionData<Point>{name, data}]. *)
Record ProcessRegionData : Type := mkRegion {
  name : string;
  data : SortedVec
}.

(** ** What [utils.h] and the platform provide *)

Class Utils : Type := {
  (** width of [std::size_t] *)
  size_bits : positive;
  (** width of the signed integer type that [parse_int] returns *)
  int_bits : positive;
  trim_ws : string -> string;
  starts_with : ascii -> string -> bool;
  split : ascii -> string -> list string;
  (** [parse_int text what]: the integer, or the message of the
      [std::runtime_error] it throws *)
  parse_int : string -> string -> Z + string;
  (** [what()] of a [std::system_error] built from an error code *)
  system_message : Z -> string
}.

Section Parser.

Context {U : Utils}.

Definition size_modulus : Z := 2 ^ Z.pos size_bits.
Definition size_t (z : Z) : Z := z mod size_modulus.

Definition int_max : Z := 2 ^ (Z.pos int_bits - 1) - 1.
Definition int_min : Z := - 2 ^ (Z.pos int_bits - 1).
Definition representable (z : Z) : bool := (int_min <=? z) && (z <=? int_max).

(** Signed subtraction: overflow is undefined behaviour. *)
Definition int_sub (a b : Z) : outcome Z :=
  if representable (a - b) then Return (a - b) else Undefined.

Definition what (e : exception) : string :=
  match e with
  | runtime_error m => m
  | system_error c => system_message c
  end.

(** [catch (const std::runtime_error &)] also matches the derived
    [std::system_error]. *)
Definition is_runtime_error (e : exception) : bool :=
  match e with
  | runtime_error _ => true
  | system_error _ => true
  end.

(** ** LineByLineReader *)

(** [current_line_data_] is [None] for the null pointer; the capacity of the
    buffer, [current_line_data_buffer_size_], plays no role in what the
    reader returns and is left out. *)
Record LineByLineReader : Type := mkReader {
  current_line_data_ : option string;
  current_line_size_ : Z;
  lines_read_ : Z
}.

(** State after construction: no stored data. *)
Definition new_reader : LineByLineReader :=
  mkReader None 0 0.

(** [read_next_line], given what its call of [getline] reported. *)
Definition read_next_line (r : getline_result) (reader : LineByLineReader)
  : outcome bool * LineByLineReader :=
  match r with
  | got_line l =>
      (Return true,
       mkReader (Some l) (Z.of_nat (String.length l))
                (size_t (lines_read_ reader + 1)))
  | at_eof =>
      (Return false,
       mkReader None (current_line_size_ reader) (lines_read_ reader))
  | failed error_code =>
      (Throw (system_error error_code), reader)
  end.

Definition current_line (reader : LineByLineReader) : outcome string :=
  match current_line_data_ reader with
  | Some l => Return l
  | None => Throw NoCurrentLine
  end.

(** Counts from 0. *)
Definition current_line_number (reader : LineByLineReader) : Z :=
  size_t (lines_read_ reader - 1).

(** ** The BED parser *)

(** The local variables of [read_points_from_bed_file]. *)
Record Locals : Type := mkLocals {
  regions : list ProcessRegionData;
  current_region_points : list Point;
  current_region_name : string
}.

Definition initial_locals : Locals := mkLocals [] [] "".

Definition empty (s : string) : bool := (s =? "")%string.

(** [if (c) throw e;] *)
Definition throw_if (c : bool) (e : exception) : outcome unit :=
  if c then Throw e else Return tt.

Definition parse_int_or_throw (text label : string) : outcome Z :=
  match parse_int text label with
  | inl z => Return z
  | inr message => Throw (runtime_error message)
  end.

(** The decimal digits of an unsigned number, as [{}] prints it. *)
Definition decimal (n : Z) : string :=
  NilZero.string_of_uint (N.to_uint (Z.to_N n)).

(** [fmt::format ("Parsing BED file at line {}: {}", n, what)] *)
Definition format_context (n : Z) (message : string) : string :=
  "Parsing BED file at line " ++ decimal n ++ ": " ++ message.

Definition tab : ascii := "009"%char.

(** Start of a new region (lines 137 to 148): the finished region is
    stored, the accumulator is cleared and renamed. *)
Definition start_region (region_name : string) (v : Locals) : outcome Locals :=
  if negb (region_name =? current_region_name v)%string then
    _ <- throw_if (empty region_name) EmptyRegionName ;;
    let regions' :=
      if negb (empty (current_region_name v))
      then (regions v ++ [mkRegion (current_region_name v)
                                   (from_unsorted (current_region_points v))])%list
      else regions v in
    Return (mkLocals regions' [] region_name)
  else Return v.

(** The body of the [while] loop, from the line it was given (lines 122
    to 150 after the call of [current_line]). *)
Definition process_line (raw : string) (v : Locals) : outcome Locals :=
  let line := trim_ws raw in
  if starts_with "#"%char line then Return v
  else
    let fields := split tab line in
    _ <- throw_if (negb (3 <=? List.length fields)%nat) MalformedLine ;;
    let region_name := nth 0 fields "" in
    interval_start_position <-
      parse_int_or_throw (nth 1 fields "") "interval_position_start" ;;
    interval_end_position <-
      parse_int_or_throw (nth 2 fields "") "interval_position_end" ;;
    _ <- throw_if (negb (interval_start_position <? interval_end_position))
                  InvalidInterval ;;
    v <- start_region region_name v ;;
    width <- int_sub interval_end_position interval_start_position ;;
    Return (mkLocals (regions v)
                     (current_region_points v ++ [Z.quot width 2])%list
                     (current_region_name v)).

Definition loop_body (reader : LineByLineReader) (v : Locals) : outcome Locals :=
  raw <- current_line reader ;;
  process_line raw v.

(** [while (reader.read_next_line ()) { body }], by recursion on the lines
    the stream still holds.  The result keeps the reader as the loop left
    it, for the handler. *)
Fixpoint while_read (lines : list string) (fin : stream_end)
    (reader : LineByLineReader) (v : Locals)
  : outcome Locals * LineByLineReader :=
  match lines with
  | l :: rest =>
      let (more, reader) := read_next_line (got_line l) reader in
      match more with
      | Return true =>
          match loop_body reader v with
          | Return v => while_read rest fin reader v
          | Throw e => (Throw e, reader)
          | Undefined => (Undefined, reader)
          end
      | Return false => (Return v, reader)
      | Throw e => (Throw e, reader)
      | Undefined => (Undefined, reader)
      end
  | [] =>
      let (more, reader) := read_next_line (end_result fin) reader in
      match more with
      | Return _ => (Return v, reader)
      | Throw e => (Throw e, reader)
      | Undefined => (Undefined, reader)
      end
  end.

Definition read_points_from_bed_file (file : FILE)
  : outcome (list ProcessRegionData) :=
  match while_read (pending file) (finish file) new_reader initial_locals with
  | (Return v, _) => Return (regions v)
  | (Throw e, reader) =>
      if is_runtime_error e
      then Throw (runtime_error
                    (format_context (size_t (current_line_number reader + 1))
                                    (what e)))
      else Throw e
  | (Undefined, _) => Undefined
  end.

(** The reader as [read_next_line] leaves it after a line. *)
Definition after_line (l : string) (reader : LineByLineReader) : LineByLineReader :=
  snd (read_next_line (got_line l) reader).

(** A line that is not a comment and whose fields pass the checks of
    lines 127 to 135. *)
Record data_line (l region_name : string) (a b : Z) : Prop := {
  not_comment : starts_with "#"%char (trim_ws l) = false;
  three_fields : (3 <= List.length (split tab (trim_ws l)))%nat;
  field_0 : nth 0 (split tab (trim_ws l)) "" = region_name;
  field_1 : parse_int (nth 1 (split tab (trim_ws l)) "")
                      "interval_position_start" = inl a;
  field_2 : parse_int (nth 2 (split tab (trim_ws l)) "")
                      "interval_position_end" = inl b;
  bounds : a < b
}.

(** The locals after the loop body has run on each of [lines] in turn. *)
Fixpoint fold_lines (lines : list string) (v : Locals) : outcome Locals :=
  match lines with
  | [] => Return v
  | l :: rest => v' <- process_line l v ;; fold_lines rest v'
  end.

(** ** Properties of the locals *)

(** Every stored region holds a sorted vector. *)
Definition regions_sorted (v : Locals) : Prop :=
  Forall (fun r => Sorted Z.le (sorted_points (data r))) (regions v).

(** No stored or accumulated point is negative. *)
Definition points_nonneg (v : Locals) : Prop :=
  Forall (fun r => Forall (fun p => 0 <= p) (sorted_points (data r))) (regions v)
  /\ Forall (fun p => 0 <= p) (current_region_points v).

(** The regions stored so far, with the open one added if there is one. *)
Definition with_open_region (v : Locals) : list ProcessRegionData :=
  if empty (current_region_name v) then regions v
  else regions v ++ [mkRegion (current_region_name v)
                              (from_unsorted (current_region_points v))].

(** ** Runs of lines

    The input seen as the spec describes it: a sequence of runs, each a
    region name with the interval records of its consecutive lines. *)

Record interval_record : Type := mkInterval {
  record_line : string;
  record_start : Z;
  record_end : Z
}.

Definition run : Type := (string * list interval_record)%type.

Definition run_lines (r : run) : list string := map record_line (snd r).

Definition record_point (i : interval_record) : Point :=
  Z.quot (record_end i - record_start i) 2.

Definition run_points (r : run) : list Point := map record_point (snd r).

(** The region entry that a run is sealed into. *)
Definition seal (r : run) : ProcessRegionData :=
  mkRegion (fst r) (from_unsorted (run_points r)).

(** A line that the body accepts as a record of the region [region_name]. *)
Definition valid_record (region_name : string) (i : interval_record) : Prop :=
  data_line (record_line i) region_name (record_start i) (record_end i)
  /\ record_end i - record_start i <= int_max.

Definition valid_run (r : run) : Prop :=
  fst r <> "" /\ snd r <> [] /\ Forall (valid_record (fst r)) (snd r).

(** Consecutive runs have different names. *)
Fixpoint names_change (runs : list run) : Prop :=
  match runs with
  | r1 :: (r2 :: _) as rest => fst r1 <> fst r2 /\ names_change rest
  | _ => True
  end.

Definition runs_lines (runs : list run) : list string :=
  List.concat (map run_lines runs).

End Parser.

(** ** An instance of the helpers *)

Module SpecUtils.

(** [isspace] of the C locale. *)
Definition is_space (c : ascii) : bool :=
  match c with
  | " "%char | "009"%char | "010"%char | "011"%char | "012"%char | "013"%char => true
  | _ => false
  end.

Fixpoint trim_left (ws : ascii -> bool) (s : string) : string :=
  match s with
  | EmptyString => EmptyString
  | String c s' => if ws c then trim_left ws s' else s
  end.

Fixpoint trim_right (ws : ascii -> bool) (s : string) : string :=
  match s with
  | EmptyString => EmptyString
  | String c s' =>
      match trim_right ws s' with
      | EmptyString => if ws c then EmptyString else String c EmptyString
      | t => String c t
      end
  end.

Definition trim (ws : ascii -> bool) (s : string) : string :=
  trim_right ws (trim_left ws s).

(** Modelled from the spec: [trim_ws] is declared in [utils.h], which is
    not part of the sources; the spec gives its contract as trimming the
    surrounding whitespace. *)
Definition trim_ws (s : string) : string := trim is_space s.

(** Modelled from the spec: [starts_with (char, string_view)] of [utils.h];
    the line starts with the character. *)
Definition starts_with (c : ascii) (s : string) : bool :=
  match s with
  | EmptyString => false
  | String c' _ => Ascii.eqb c' c
  end.

(** Modelled from the spec: [split] of [utils.h]; the ordered sequence of
    the slices between separators, empty slices kept. *)
Fixpoint split (sep : ascii) (s : string) : list string :=
  match s with
  | EmptyString => [EmptyString]
  | String c s' =>
      if Ascii.eqb c sep then EmptyString :: split sep s'
      else match split sep s' with
           | field :: fields => String c field :: fields
           | [] => [String c EmptyString]
           end
  end.

Definition digit (c : ascii) : option Z :=
  let n := Z.of_nat (nat_of_ascii c) in
  if (48 <=? n) && (n <=? 57) then Some (n - 48) else None.

Fixpoint digits (s : string) (acc : Z) : option Z :=
  match s with
  | EmptyString => Some acc
  | String c s' =>
      match digit c with
      | Some d => digits s' (10 * acc + d)
      | None => None
      end
  end.

Definition signed_decimal (s : string) : option Z :=
  match s with
  | EmptyString => None
  | String "-"%char EmptyString => None
  | String "-"%char s' => option_map Z.opp (digits s' 0)
  | _ => digits s 0
  end.

Definition bits : positive := 32.

(** Modelled from the spec: [parse_int] of [utils.h]; a signed decimal
    integer, or an error that names the field.  The integer type is taken
    to be a 32-bit [int]. *)
Definition parse_int (text label : string) : Z + string :=
  match signed_decimal text with
  | Some z =>
      if (- 2 ^ 31 <=? z) && (z <=? 2 ^ 31 - 1) then inl z
      else inr ("Value out of range for " ++ label)
  | None => inr ("Not an integer for " ++ label)
  end.

(** Modelled from the spec: the system error detail of an error code, here
    the text of [strerror] for [EIO] and a generic text otherwise. *)
Definition system_message (errno : Z) : string :=
  if errno =? 5 then "Input/output error" else "Unknown error".

End SpecUtils.

#[global] Instance spec_utils : Utils := {|
  size_bits := 64;
  int_bits := SpecUtils.bits;
  trim_ws := SpecUtils.trim_ws;
  starts_with := SpecUtils.starts_with;
  split := SpecUtils.split;
  parse_int := SpecUtils.parse_int;
  system_message := SpecUtils.system_message
|}.

Definition LF : string := String "010"%char EmptyString.
Definition TAB : string := String tab EmptyString.

(** A line of three fields, with its terminator. *)
Definition bed_line (region start_ end_ : string) : string :=
  region ++ TAB ++ start_ ++ TAB ++ end_ ++ LF.

Definition region (n : string) (points : list Point) : ProcessRegionData :=
  mkRegion n (mkSortedVec points).

(** ** Sample inputs *)

Definition round_trip_file : FILE :=
  mkFILE ["# header" ++ LF;
          bed_line "chr1" "10" "20";
          bed_line "chr1" "30" "50";
          bed_line "chr2" "5" "9"] clean_eof.

Definition single_run_file : FILE :=
  mkFILE [bed_line "chr1" "10" "20"] clean_eof.

Definition interrupted_file : FILE :=
  mkFILE [bed_line "chr1" "10" "20";
          bed_line "chr2" "5" "9";
          bed_line "chr1" "30" "50"] clean_eof.

Definition interrupted_then_closed_file : FILE :=
  mkFILE [bed_line "chr1" "10" "20";
          bed_line "chr2" "5" "9";
          bed_line "chr1" "30" "50";
          bed_line "chr3" "1" "2"] clean_eof.


Definition unsorted_file : FILE :=
  mkFILE [bed_line "chr1" "30" "50";
          bed_line "chr1" "10" "20";
          bed_line "chr1" "0" "7";
          bed_line "chr2" "5" "9";
          bed_line "chr3" "1" "2"] clean_eof.


(** ** Definitions for the further properties *)

(** Neighbours in a list of names are different. *)
Fixpoint differ_adjacent (names : list string) : Prop :=
  match names with
  | a :: (b :: _) as rest => a <> b /\ differ_adjacent rest
  | _ => True
  end.

Section Further.

Context {U : Utils}.

(** One call of [reader.read_next_line ()] on a reader bound to the stream
    [file]: the call of [getline], then the reader's reaction to it. *)
Definition read_from (file : FILE) (reader : LineByLineReader)
  : outcome bool * (FILE * LineByLineReader) :=
  let (r, file') := getline file in
  let (more, reader') := read_next_line r reader in
  (more, (file', reader')).

(** The stream and the reader after [n] calls of [read_next_line], whatever
    they reported. *)
Fixpoint after_reads (n : nat) (file : FILE) (reader : LineByLineReader)
  : FILE * LineByLineReader :=
  match n with
  | O => (file, reader)
  | S n' =>
      let st := snd (read_from file reader) in
      after_reads n' (fst st) (snd st)
  end.

(** The test of line 123 on a raw line. *)
Definition is_comment (l : string) : bool :=
  starts_with "#"%char (trim_ws l).

Definition data_lines (lines : list string) : list string :=
  filter (fun l => negb (is_comment l)) lines.

(** The fields of a raw line, as line 126 computes them. *)
Definition fields_of (l : string) : list string := split tab (trim_ws l).

(** Stored regions have names, and points; so has the open region, when
    there is one. *)
Definition regions_filled (v : Locals) : Prop :=
  Forall (fun r => name r <> "" /\ sorted_points (data r) <> []) (regions v)
  /\ (current_region_name v <> "" -> current_region_points v <> []).

(** The names of the stored regions change from each to the next, the
    open region is named unlike the last stored one, and nothing is stored
    before a region was opened. *)
Definition names_differ (v : Locals) : Prop :=
  differ_adjacent (map name (regions v) ++ [current_region_name v])%list
  /\ (current_region_name v = "" -> regions v = []).

(** 1 when a region is open, else 0. *)
Definition open_regions (v : Locals) : nat :=
  if empty (current_region_name v) then 0%nat else 1%nat.

(** Two raw lines that the body cannot tell apart: both comments, or both
    not and with the same first three fields. *)
Definition same_record (l1 l2 : string) : Prop :=
  is_comment l1 = is_comment l2
  /\ (is_comment l1 = false ->
      firstn 3 (fields_of l1) = firstn 3 (fields_of l2)).

End Further.

(** ** More sample inputs *)

Definition three_line_file : FILE :=
  mkFILE [bed_line "chr1" "10" "20"; "# note" ++ LF; bed_line "chr2" "5" "9"]
         clean_eof.

Definition four_runs_file : FILE :=
  mkFILE [bed_line "chr1" "10" "20";
          bed_line "chr2" "5" "9";
          bed_line "chr2" "1" "2";
          bed_line "chr1" "30" "50";
          bed_line "chrX" "0" "4"] clean_eof.

Definition commented_file : FILE :=
  mkFILE ["# header" ++ LF;
          bed_line "chr1" "10" "20";
          "   # indented note" ++ LF;
          bed_line "chr2" "5" "9";
          "#" ++ LF;
          bed_line "chr3" "1" "2"] clean_eof.

Definition overflow_file : FILE :=
  mkFILE [bed_line "chr1" "-2147483648" "2147483647"] clean_eof.

(** * Facts *)

(** ** Sorting *)

Lemma insert_sorted_In (p q : Point) (l : list Point) :
  In q (insert_sorted p l) <-> q = p \/ In q l.
Proof.
  induction l as [|x l IH]; simpl.
  - intuition.
  - destruct (p <=? x); simpl; rewrite ?IH; intuition.
Qed.

Lemma from_unsorted_In (q : Point) (l : list Point) :
  In q (sorted_points (from_unsorted l)) <-> In q l.
Proof.
  unfold from_unsorted; simpl.
  induction l as [|x l IH]; simpl; [tauto|].
  rewrite insert_sorted_In, IH. intuition.
Qed.

Lemma insert_sorted_HdRel (a p : Point) (l : list Point) :
  a <= p -> HdRel Z.le a l -> HdRel Z.le a (insert_sorted p l).
Proof.
  intros Hap Hl. destruct l as [|x l]; simpl.
  - now constructor.
  - destruct (p <=? x); constructor; trivial.
    now inversion Hl.
Qed.

Lemma insert_sorted_Sorted (p : Point) (l : list Point) :
  Sorted Z.le l -> Sorted Z.le (insert_sorted p l).
Proof.
  induction 1 as [|x l Hl IH Hd]; simpl.
  - repeat constructor.
  - destruct (p <=? x) eqn:E.
    + apply Z.leb_le in E. repeat constructor; trivial.
    + apply Z.leb_gt in E. constructor; trivial.
      apply insert_sorted_HdRel; trivial. lia.
Qed.

Lemma from_unsorted_Sorted (l : list Point) :
  Sorted Z.le (sorted_points (from_unsorted l)).
Proof.
  unfold from_unsorted; simpl.
  induction l; simpl; [constructor | now apply insert_sorted_Sorted].
Qed.

Lemma insert_sorted_Permutation (p : Point) (l : list Point) :
  Permutation (p :: l) (insert_sorted p l).
Proof.
  induction l as [|x l IH]; simpl; trivial.
  destruct (p <=? x); trivial.
  rewrite perm_swap. now constructor.
Qed.

Lemma from_unsorted_Permutation (l : list Point) :
  Permutation l (sorted_points (from_unsorted l)).
Proof.
  unfold from_unsorted; simpl.
  induction l as [|x l IH]; simpl; trivial.
  rewrite <- insert_sorted_Permutation. now constructor.
Qed.

(** In a sorted list, neighbours are in order. *)
Lemma Sorted_adjacent (l : list Point) :
  Sorted Z.le l ->
  forall i, (i + 1 < List.length l)%nat -> nth i l 0 <= nth (i + 1) l 0.
Proof.
  induction 1 as [|x l Hl IH Hd]; intros i Hi; simpl in Hi; [lia|].
  destruct i as [|i]; simpl.
  - destruct l; simpl in *; [lia|]. now inversion Hd.
  - apply IH. lia.
Qed.

(** ** The reader and the loop *)

Section LoopFacts.

Context {U : Utils}.

Lemma size_modulus_pos : 0 < size_modulus.
Proof. unfold size_modulus. apply Z.pow_pos_nonneg; lia. Qed.

Lemma size_modulus_gt_1 : 1 < size_modulus.
Proof. unfold size_modulus. apply Z.pow_gt_1; lia. Qed.

Lemma size_t_plus_l (a b : Z) : size_t (size_t a + b) = size_t (a + b).
Proof. unfold size_t. apply Zplus_mod_idemp_l. Qed.

Lemma size_t_idem (z : Z) : size_t (size_t z) = size_t z.
Proof. unfold size_t. apply Z.mod_mod. pose proof size_modulus_pos. lia. Qed.

Lemma size_t_small (z : Z) : 0 <= z < size_modulus -> size_t z = z.
Proof. unfold size_t. apply Z.mod_small. Qed.

(** The line number that the handler prints is the count of lines read. *)
Lemma handler_line_number (reader : LineByLineReader) :
  size_t (current_line_number reader + 1) = size_t (lines_read_ reader).
Proof.
  unfold current_line_number. rewrite size_t_plus_l. f_equal. lia.
Qed.

Lemma lines_read_after_line (l : string) (reader : LineByLineReader) :
  lines_read_ (after_line l reader) = size_t (lines_read_ reader + 1).
Proof. reflexivity. Qed.

Lemma loop_body_after_line (l : string) (reader : LineByLineReader) (v : Locals) :
  loop_body (after_line l reader) v = process_line l v.
Proof. reflexivity. Qed.

Lemma while_read_cons (l : string) (rest : list string) (fin : stream_end)
    (reader : LineByLineReader) (v : Locals) :
  while_read (l :: rest) fin reader v =
  match process_line l v with
  | Return v' => while_read rest fin (after_line l reader) v'
  | Throw e => (Throw e, after_line l reader)
  | Undefined => (Undefined, after_line l reader)
  end.
Proof. reflexivity. Qed.

Lemma while_read_nil (fin : stream_end) (reader : LineByLineReader) (v : Locals) :
  while_read [] fin reader v =
  match fin with
  | clean_eof =>
      (Return v, mkReader None (current_line_size_ reader) (lines_read_ reader))
  | io_failure c => (Throw (system_error c), reader)
  end.
Proof. destruct fin; reflexivity. Qed.

(** One turn of the loop as the source has it: [getline] inside
    [read_next_line], the test of its result, the body. *)
Lemma while_read_step (file : FILE) (reader : LineByLineReader) (v : Locals) :
  while_read (pending file) (finish file) reader v =
  let (r, file') := getline file in
  let (more, reader') := read_next_line r reader in
  match more with
  | Return true =>
      match loop_body reader' v with
      | Return v' => while_read (pending file') (finish file') reader' v'
      | Throw e => (Throw e, reader')
      | Undefined => (Undefined, reader')
      end
  | Return false => (Return v, reader')
  | Throw e => (Throw e, reader')
  | Undefined => (Undefined, reader')
  end.
Proof. destruct file as [[|l rest] [|c]]; reflexivity. Qed.

(** At the end of the stream [read_next_line] never reports a line. *)
Lemma read_next_line_at_end (fin : stream_end) (reader : LineByLineReader) :
  fst (read_next_line (end_result fin) reader) <> Return true.
Proof. destruct fin; simpl; discriminate. Qed.

(** How the loop ends, in terms of the fold of the body over the lines. *)
Lemma while_read_outcome (lines : list string) (fin : stream_end)
    (reader : LineByLineReader) (v : Locals) :
  fst (while_read lines fin reader v) =
  match fold_lines lines v with
  | Return v' =>
      match fin with
      | clean_eof => Return v'
      | io_failure c => Throw (system_error c)
      end
  | Throw e => Throw e
  | Undefined => Undefined
  end.
Proof.
  revert reader v. induction lines as [|l rest IH]; intros reader v.
  - rewrite while_read_nil. destruct fin; reflexivity.
  - rewrite while_read_cons. simpl fold_lines.
    destruct (process_line l v) as [v'| |]; simpl; trivial.
Qed.

(** Lines that the body accepts move the loop forward, and each is counted. *)
Lemma while_read_app (pre rest : list string) (fin : stream_end)
    (reader : LineByLineReader) (v v' : Locals) :
  fold_lines pre v = Return v' ->
  exists reader',
    while_read (pre ++ rest) fin reader v = while_read rest fin reader' v'
    /\ size_t (lines_read_ reader')
       = size_t (lines_read_ reader + Z.of_nat (List.length pre)).
Proof.
  revert reader v. induction pre as [|l pre IH]; intros reader v Hfold.
  - simpl in Hfold. injection Hfold as <-. exists reader. split; trivial.
    simpl. f_equal. lia.
  - simpl in Hfold. destruct (process_line l v) as [v1| |] eqn:Hl;
      simpl in Hfold; try discriminate.
    destruct (IH (after_line l reader) v1 Hfold) as (reader' & Hw & Hn).
    exists reader'. split.
    + simpl app. rewrite while_read_cons, Hl. exact Hw.
    + rewrite Hn, lines_read_after_line, size_t_plus_l. f_equal.
      cbn [List.length]. rewrite Nat2Z.inj_succ. lia.
Qed.

(** The result of the whole function, when the loop ends normally. *)
Lemma read_points_returns (file : FILE) (result : list ProcessRegionData) :
  read_points_from_bed_file file = Return result <->
  finish file = clean_eof /\
  exists v, fold_lines (pending file) initial_locals = Return v
            /\ result = regions v.
Proof.
  unfold read_points_from_bed_file.
  pose proof (while_read_outcome (pending file) (finish file)
                new_reader initial_locals) as H.
  destruct (while_read (pending file) (finish file) new_reader initial_locals)
    as [o reader]. simpl in H. subst o.
  destruct (fold_lines (pending file) initial_locals) as [v| |].
  - destruct (finish file).
    + split.
      * intros [= <-]. split; trivial. now exists v.
      * intros (_ & v' & [= <-] & ->). reflexivity.
    + simpl. split; [discriminate|]. intros (? & _); discriminate.
  - split.
    + destruct (is_runtime_error e); discriminate.
    + intros (_ & v' & ? & _); discriminate.
  - split; [discriminate|]. intros (_ & v' & ? & _); discriminate.
Qed.

End LoopFacts.

(** ** The loop body *)

Section BodyFacts.

Context {U : Utils}.

Lemma empty_true (s : string) : empty s = true <-> s = "".
Proof. unfold empty. apply String.eqb_eq. Qed.

Lemma empty_false (s : string) : empty s = false <-> s <> "".
Proof. unfold empty. apply String.eqb_neq. Qed.

(** The locals with which [start_region] can return. *)
Lemma start_region_returns (region_name : string) (v v1 : Locals) :
  start_region region_name v = Return v1 ->
  (region_name = current_region_name v /\ v1 = v)
  \/ (region_name <> current_region_name v /\ region_name <> ""
      /\ current_region_name v = "" /\ v1 = mkLocals (regions v) [] region_name)
  \/ (region_name <> current_region_name v /\ region_name <> ""
      /\ current_region_name v <> ""
      /\ v1 = mkLocals
                (regions v ++ [mkRegion (current_region_name v)
                                 (from_unsorted (current_region_points v))])
                [] region_name).
Proof.
  unfold start_region.
  destruct (String.eqb_spec region_name (current_region_name v)) as [E|E]; simpl.
  - intros [= <-]. now left.
  - destruct (empty region_name) eqn:En; simpl; [discriminate|].
    apply empty_false in En.
    destruct (empty (current_region_name v)) eqn:Ec; simpl; intros [= <-].
    + apply empty_true in Ec. right; left. repeat split; trivial.
    + apply empty_false in Ec. right; right. repeat split; trivial.
Qed.

(** [start_region] throws only the empty-name error, and only when a
    region with another, non-empty name is open. *)
Lemma start_region_throws (region_name : string) (v : Locals) (e : exception) :
  start_region region_name v = Throw e <->
  e = EmptyRegionName /\ region_name = "" /\ current_region_name v <> "".
Proof.
  unfold start_region.
  destruct (String.eqb_spec region_name (current_region_name v)) as [E|E]; simpl.
  - split; [discriminate|]. intros (_ & -> & H). now destruct H.
  - destruct (empty region_name) eqn:En; simpl.
    + apply empty_true in En. subst region_name. split.
      * intros [= <-]. repeat split. congruence.
      * intros (-> & _). reflexivity.
    + apply empty_false in En. split; [discriminate|]. intros (_ & H & _).
      now destruct En.
Qed.

Lemma start_region_defined (region_name : string) (v : Locals) :
  start_region region_name v <> Undefined.
Proof.
  unfold start_region.
  destruct (negb _); [|discriminate].
  destruct (empty region_name); simpl; discriminate.
Qed.

Lemma process_line_data (l region_name : string) (a b : Z) (v : Locals) :
  data_line l region_name a b ->
  process_line l v =
  (v1 <- start_region region_name v ;;
   width <- int_sub b a ;;
   Return (mkLocals (regions v1)
                    (current_region_points v1 ++ [Z.quot width 2])%list
                    (current_region_name v1))).
Proof.
  intros [Hc H3 H0 H1 H2 Hab]. unfold process_line.
  rewrite Hc. apply Nat.leb_le in H3. rewrite H3. simpl.
  unfold parse_int_or_throw. rewrite H1, H2. simpl.
  apply Z.ltb_lt in Hab. rewrite Hab. simpl. now rewrite H0.
Qed.

(** Every line on which the body returns is a comment or a data line. *)
Lemma process_line_returns (l : string) (v v' : Locals) :
  process_line l v = Return v' ->
  (starts_with "#"%char (trim_ws l) = true /\ v' = v)
  \/ exists region_name a b v1,
       data_line l region_name a b
       /\ start_region region_name v = Return v1
       /\ representable (b - a) = true
       /\ v' = mkLocals (regions v1)
                        (current_region_points v1 ++ [Z.quot (b - a) 2])
                        (current_region_name v1).
Proof.
  unfold process_line.
  destruct (starts_with "#"%char (trim_ws l)) eqn:Hc.
  - intros [= <-]. now left.
  - destruct (3 <=? List.length (split tab (trim_ws l)))%nat eqn:H3;
      simpl; [|discriminate].
    unfold parse_int_or_throw.
    destruct (parse_int (nth 1 _ "") _) as [a|] eqn:H1; simpl; [|discriminate].
    destruct (parse_int (nth 2 _ "") _) as [b|] eqn:H2; simpl; [|discriminate].
    destruct (a <? b) eqn:Hab; simpl; [|discriminate].
    destruct (start_region _ v) as [v1| |] eqn:Hs; simpl; try discriminate.
    unfold int_sub. destruct (representable (b - a)) eqn:Hr; simpl;
      [|discriminate].
    intros [= <-]. right.
    exists (nth 0 (split tab (trim_ws l)) ""), a, b, v1.
    repeat split; trivial.
    + now apply Nat.leb_le.
    + now apply Z.ltb_lt.
Qed.

(** The exceptions of the body are the four parse failures. *)
Lemma process_line_throws (l : string) (v : Locals) (e : exception) :
  process_line l v = Throw e ->
  e = MalformedLine
  \/ (exists text label message,
        parse_int text label = inr message /\ e = runtime_error message)
  \/ e = InvalidInterval
  \/ e = EmptyRegionName.
Proof.
  unfold process_line.
  destruct (starts_with "#"%char (trim_ws l)); [discriminate|].
  destruct (3 <=? List.length (split tab (trim_ws l)))%nat; simpl.
  2:{ intros [= <-]. now left. }
  unfold parse_int_or_throw.
  destruct (parse_int (nth 1 _ "") _) as [a|m] eqn:H1; simpl.
  2:{ intros [= <-]. right; left. eauto. }
  destruct (parse_int (nth 2 _ "") _) as [b|m] eqn:H2; simpl.
  2:{ intros [= <-]. right; left. eauto. }
  destruct (a <? b); simpl.
  2:{ intros [= <-]. now right; right; left. }
  destruct (start_region _ v) as [v1| |] eqn:Hs; simpl.
  - unfold int_sub. destruct (representable (b - a)); simpl; discriminate.
  - intros [= <-]. apply start_region_throws in Hs. right; right; right. tauto.
  - discriminate.
Qed.

(** Whatever the body throws is caught by the handler of the function. *)
Lemma read_points_throws_at (pre post : list string) (l : string)
    (fin : stream_end) (v : Locals) (e : exception) :
  fold_lines pre initial_locals = Return v ->
  process_line l v = Throw e ->
  exists reader,
    while_read (pre ++ l :: post) fin new_reader initial_locals
      = (Throw e, reader)
    /\ lines_read_ reader = size_t (Z.of_nat (List.length pre) + 1)
    /\ read_points_from_bed_file (mkFILE (pre ++ l :: post) fin)
       = Throw (runtime_error
                  (format_context (size_t (Z.of_nat (List.length pre) + 1))
                                  (what e))).
Proof.
  intros Hpre Hl.
  destruct (while_read_app pre (l :: post) fin new_reader _ _ Hpre)
    as (reader' & Hw & Hn).
  assert (Hlr : lines_read_ (after_line l reader')
                = size_t (Z.of_nat (List.length pre) + 1)).
  { rewrite lines_read_after_line, <- size_t_plus_l, Hn, size_t_plus_l.
    reflexivity. }
  exists (after_line l reader'). split; [|split]; trivial.
  - rewrite Hw, while_read_cons, Hl. reflexivity.
  - unfold read_points_from_bed_file. simpl pending. simpl finish.
    rewrite Hw, while_read_cons, Hl.
    replace (is_runtime_error e) with true by now destruct e.
    now rewrite handler_line_number, Hlr, size_t_idem.
Qed.

(** A failure of the stream after lines that the body accepted. *)
Lemma read_points_io_failure (lines : list string) (errno : Z) (v : Locals) :
  fold_lines lines initial_locals = Return v ->
  read_points_from_bed_file (mkFILE lines (io_failure errno))
  = Throw (runtime_error
             (format_context (size_t (Z.of_nat (List.length lines)))
                             (system_message errno))).
Proof.
  intros Hfold.
  destruct (while_read_app lines [] (io_failure errno) new_reader _ _ Hfold)
    as (reader' & Hw & Hn).
  rewrite app_nil_r in Hw.
  unfold read_points_from_bed_file. simpl pending. simpl finish.
  rewrite Hw, while_read_nil. simpl.
  now rewrite handler_line_number, Hn.
Qed.

End BodyFacts.

(** ** Invariants of the accumulation *)

Section Invariants.

Context {U : Utils}.

Lemma fold_lines_invariant (P : Locals -> Prop) :
  (forall l v v', P v -> process_line l v = Return v' -> P v') ->
  forall lines v v', P v -> fold_lines lines v = Return v' -> P v'.
Proof.
  intros Hstep. induction lines as [|l lines IH]; simpl; intros v v' Hv Hf.
  - now injection Hf as <-.
  - destruct (process_line l v) as [v1| |] eqn:Hl; simpl in Hf;
      try discriminate.
    eapply IH; [|exact Hf]. eapply Hstep; eauto.
Qed.

Lemma start_region_sorted (region_name : string) (v v1 : Locals) :
  regions_sorted v -> start_region region_name v = Return v1 ->
  regions_sorted v1.
Proof.
  intros Hv Hs. apply start_region_returns in Hs.
  destruct Hs as [(_ & ->)|[(_ & _ & _ & ->)|(_ & _ & _ & ->)]]; trivial.
  unfold regions_sorted; simpl. apply Forall_app. split; trivial.
  constructor; [|constructor]. simpl. apply from_unsorted_Sorted.
Qed.

Lemma process_line_sorted (l : string) (v v' : Locals) :
  regions_sorted v -> process_line l v = Return v' -> regions_sorted v'.
Proof.
  intros Hv Hl. apply process_line_returns in Hl.
  destruct Hl as [(_ & ->)|(region_name & a & b & v1 & _ & Hs & _ & ->)]; trivial.
  apply (start_region_sorted _ _ _ Hv Hs).
Qed.

Lemma start_region_nonneg (region_name : string) (v v1 : Locals) :
  points_nonneg v -> start_region region_name v = Return v1 ->
  points_nonneg v1.
Proof.
  intros [Hr Hp] Hs. apply start_region_returns in Hs.
  destruct Hs as [(_ & ->)|[(_ & _ & _ & ->)|(_ & _ & _ & ->)]];
    split; simpl; trivial; try (now constructor).
  apply Forall_app. split; trivial.
  constructor; [|constructor]. simpl.
  apply Forall_forall. intros p Hin. apply (proj1 (from_unsorted_In p _)) in Hin.
  rewrite Forall_forall in Hp. now apply Hp.
Qed.

Lemma process_line_nonneg (l : string) (v v' : Locals) :
  points_nonneg v -> process_line l v = Return v' -> points_nonneg v'.
Proof.
  intros Hv Hl. apply process_line_returns in Hl.
  destruct Hl as [(_ & ->)|(region_name & a & b & v1 & Hd & Hs & _ & ->)]; trivial.
  destruct (start_region_nonneg _ _ _ Hv Hs) as [Hr Hp].
  split; simpl; trivial.
  apply Forall_app. split; trivial.
  constructor; [|constructor].
  apply Z.quot_pos; [|lia]. pose proof (bounds _ _ _ _ Hd). lia.
Qed.

End Invariants.

(** * The claims *)

(** ** End of input (C1, C2, C7) *)

(** C1. A file that ends while a region accumulator is open: the single
    line [chr1 10 20] leaves the accumulator of [chr1] open at the end of
    input, and the function returns the empty sequence; the final run is
    not sealed and appended. *)
Theorem final_run_not_appended :
  read_points_from_bed_file single_run_file = Return [].
Proof. vm_compute. reflexivity. Qed.

(** C2. On the four lines of the round-trip example the function returns
    the entry of [chr1] only; the entry of [chr2], the last run, is not
    part of the result. *)
Theorem round_trip_example_result :
  read_points_from_bed_file round_trip_file = Return [region "chr1" [5; 10]].
Proof. vm_compute. reflexivity. Qed.

(** C7. Two runs named [chr1] separated by a run named [chr2]: the result
    holds the first run of [chr1] and the run of [chr2]; the second run of
    [chr1] ends the file and is not part of the result, so the name occurs
    once. *)
Theorem interrupted_runs_result :
  read_points_from_bed_file interrupted_file
  = Return [region "chr1" [5]; region "chr2" [2]].
Proof. vm_compute. reflexivity. Qed.

(** Followed by a line of another region, the second run of [chr1] is
    stored as an entry of its own. *)
Example interrupted_runs_closed :
  read_points_from_bed_file interrupted_then_closed_file
  = Return [region "chr1" [5]; region "chr2" [2]; region "chr1" [10]].
Proof. vm_compute. reflexivity. Qed.

(** ** Invariants of the result (C5, C10) *)

(** C5. Sortedness: in every region entry of a returned sequence, each
    point is at most its successor. *)
Theorem result_points_sorted {U : Utils} (file : FILE)
    (result : list ProcessRegionData) :
  read_points_from_bed_file file = Return result ->
  forall r, In r result ->
  forall i, (i + 1 < List.length (sorted_points (data r)))%nat ->
    nth i (sorted_points (data r)) 0 <= nth (i + 1) (sorted_points (data r)) 0.
Proof.
  intros Hread r Hin. apply Sorted_adjacent.
  apply read_points_returns in Hread. destruct Hread as (_ & v & Hfold & ->).
  assert (Hs : regions_sorted v).
  { apply (fold_lines_invariant regions_sorted process_line_sorted
             (pending file) initial_locals); trivial. constructor. }
  unfold regions_sorted in Hs. rewrite Forall_forall in Hs. now apply Hs.
Qed.

Lemma result_points_sorted_witness :
  read_points_from_bed_file unsorted_file
  = Return [region "chr1" [3; 5; 10]; region "chr2" [2]]
  /\ forall r, In r [region "chr1" [3; 5; 10]; region "chr2" [2]] ->
     forall i, (i + 1 < List.length (sorted_points (data r)))%nat ->
       nth i (sorted_points (data r)) 0
       <= nth (i + 1) (sorted_points (data r)) 0.
Proof.
  split.
  - vm_compute. reflexivity.
  - apply (result_points_sorted unsorted_file). vm_compute. reflexivity.
Defined.

(** C10. No point of a returned region entry is negative. *)
Theorem result_points_nonneg {U : Utils} (file : FILE)
    (result : list ProcessRegionData) :
  read_points_from_bed_file file = Return result ->
  forall r, In r result ->
  forall p, In p (sorted_points (data r)) -> 0 <= p.
Proof.
  intros Hread r Hin p Hp.
  apply read_points_returns in Hread. destruct Hread as (_ & v & Hfold & ->).
  assert (Hs : points_nonneg v).
  { apply (fold_lines_invariant points_nonneg process_line_nonneg
             (pending file) initial_locals); trivial.
    split; constructor. }
  destruct Hs as [Hs _]. rewrite Forall_forall in Hs.
  specialize (Hs r Hin). rewrite Forall_forall in Hs. now apply Hs.
Qed.

Lemma result_points_nonneg_witness :
  read_points_from_bed_file unsorted_file
  = Return [region "chr1" [3; 5; 10]; region "chr2" [2]]
  /\ forall r, In r [region "chr1" [3; 5; 10]; region "chr2" [2]] ->
     forall p, In p (sorted_points (data r)) -> 0 <= p.
Proof.
  split.
  - vm_compute. reflexivity.
  - apply (result_points_nonneg unsorted_file). vm_compute. reflexivity.
Defined.

(** ** Point derivation (C6) *)

(** C6. On a data line with parsed positions [a < b] whose width is
    representable, and whose name continues the open region or is not
    empty, the body returns, and the point it appends to the accumulator
    is [(b - a) / 2] with the quotient truncated. *)
Theorem point_derivation {U : Utils} (l region_name : string) (a b : Z)
    (v : Locals) :
  data_line l region_name a b ->
  b - a <= int_max ->
  region_name = current_region_name v \/ region_name <> "" ->
  exists v',
    process_line l v = Return v'
    /\ current_region_points v'
       = ((if (region_name =? current_region_name v)%string
           then current_region_points v else []) ++ [Z.quot (b - a) 2])%list.
Proof.
  intros Hd Hmax Hname. rewrite (process_line_data _ _ _ _ v Hd).
  assert (Hr : representable (b - a) = true).
  { unfold representable, int_min. pose proof (bounds _ _ _ _ Hd).
    assert (0 < 2 ^ (Z.pos int_bits - 1)) by (apply Z.pow_pos_nonneg; lia).
    apply andb_true_intro. split; apply Z.leb_le; lia. }
  unfold int_sub. rewrite Hr. unfold start_region.
  destruct (String.eqb_spec region_name (current_region_name v)) as [E|E]; simpl.
  - eexists. split; reflexivity.
  - destruct Hname as [Hname|Hname]; [contradiction|].
    apply empty_false in Hname. rewrite Hname. simpl.
    eexists. split; reflexivity.
Qed.

Lemma point_derivation_witness :
  exists v',
    process_line (bed_line "chr1" "10" "17")
                 (mkLocals [] [5] "chr1") = Return v'
    /\ current_region_points v' = [5; 3].
Proof.
  apply (point_derivation (U := spec_utils) (bed_line "chr1" "10" "17")
           "chr1" 10 17 (mkLocals [] [5] "chr1")).
  - constructor; vm_compute; trivial.
  - vm_compute. discriminate.
  - left. reflexivity.
Defined.

(** The two intervals of the spec, through the loop body. *)
Example point_of_10_15 :
  fold_lines [bed_line "chr1" "10" "15"; bed_line "chr1" "10" "17"]
             initial_locals
  = Return (mkLocals [] [2; 3] "chr1").
Proof. vm_compute. reflexivity. Qed.

(** ** Errors (C3, C4, C8) *)

(** C8. When the body throws on the line at position [N], counted from 1
    over every line read, the reader's line number is [N - 1] at that
    point, and the function throws a [runtime_error] whose message holds
    the decimal digits of [N] in front of the message of the failure. *)
Theorem parse_failure_line_number {U : Utils} (pre post : list string)
    (l : string) (fin : stream_end) (v : Locals) (e : exception) :
  fold_lines pre initial_locals = Return v ->
  process_line l v = Throw e ->
  Z.of_nat (List.length pre) + 1 < size_modulus ->
  exists reader,
    while_read (pre ++ l :: post) fin new_reader initial_locals
      = (Throw e, reader)
    /\ current_line_number reader + 1 = Z.of_nat (List.length pre) + 1
    /\ read_points_from_bed_file (mkFILE (pre ++ l :: post) fin)
       = Throw (runtime_error
                  ("Parsing BED file at line "
                     ++ decimal (Z.of_nat (List.length pre) + 1)
                     ++ ": " ++ what e)).
Proof.
  intros Hpre Hl Hsmall.
  destruct (read_points_throws_at pre post l fin v e Hpre Hl)
    as (reader & Hw & Hlr & Hread).
  rewrite size_t_small in Hlr, Hread by lia.
  exists reader. split; [|split]; trivial.
  unfold current_line_number. rewrite Hlr, size_t_small; lia.
Qed.

Lemma parse_failure_line_number_witness :
  exists reader,
    while_read (["# header" ++ LF; bed_line "chr1" "10" "20"]
                  ++ bed_line "chr1" "foo" "20" :: [bed_line "chr2" "5" "9"])
               clean_eof new_reader initial_locals
      = (Throw (runtime_error "Not an integer for interval_position_start"),
         reader)
    /\ current_line_number reader + 1 = 3
    /\ read_points_from_bed_file
         (mkFILE (["# header" ++ LF; bed_line "chr1" "10" "20"]
                    ++ bed_line "chr1" "foo" "20" :: [bed_line "chr2" "5" "9"])
                 clean_eof)
       = Throw (runtime_error
                  "Parsing BED file at line 3: Not an integer for interval_position_start").
Proof.
  apply (parse_failure_line_number (U := spec_utils)
           ["# header" ++ LF; bed_line "chr1" "10" "20"]
           [bed_line "chr2" "5" "9"] (bed_line "chr1" "foo" "20") clean_eof
           (mkLocals [] [5] "chr1")
           (runtime_error "Not an integer for interval_position_start")).
  - vm_compute. reflexivity.
  - vm_compute. reflexivity.
  - vm_compute. reflexivity.
Defined.


(** C4, as the code has it. When the stream fails after lines that the
    body accepted, the [system_error] of [read_next_line] is caught by the
    handler and a [runtime_error] is thrown in its place: its message is
    the context with the count of lines read, then the message of the
    system error; the error code is not carried along. *)
Theorem io_failure_rewrapped {U : Utils} (lines : list string) (errno : Z)
    (v : Locals) :
  fold_lines lines initial_locals = Return v ->
  fst (while_read lines (io_failure errno) new_reader initial_locals)
    = Throw (system_error errno)
  /\ read_points_from_bed_file (mkFILE lines (io_failure errno))
     = Throw (runtime_error
                (format_context (size_t (Z.of_nat (List.length lines)))
                                (system_message errno))).
Proof.
  intros Hfold. split.
  - rewrite while_read_outcome, Hfold. reflexivity.
  - now apply read_points_io_failure with (v := v).
Qed.

Lemma io_failure_rewrapped_witness :
  fst (while_read [bed_line "chr1" "10" "20"] (io_failure 5)
                  new_reader initial_locals)
    = Throw (system_error 5)
  /\ read_points_from_bed_file
       (mkFILE [bed_line "chr1" "10" "20"] (io_failure 5))
     = Throw (runtime_error "Parsing BED file at line 1: Input/output error").
Proof.
  apply (io_failure_rewrapped (U := spec_utils) [bed_line "chr1" "10" "20"] 5
           (mkLocals [] [5] "chr1")).
  vm_compute. reflexivity.
Defined.

(** C4, as stated, fails on a stream that fails at the first read with
    error code 5: what the caller gets is a [runtime_error] like those of
    the parse failures, not the [system_error]. *)
Lemma io_failure_kind_lost :
  read_points_from_bed_file (mkFILE [] (io_failure 5))
  = Throw (runtime_error "Parsing BED file at line 0: Input/output error")
  /\ read_points_from_bed_file (mkFILE [] (io_failure 5))
     <> Throw (system_error 5).
Proof. split; vm_compute; [reflexivity | discriminate]. Qed.

(** ** The line number before the first read (C9) *)

(** C9, as the code has it. On a reader that has read no line,
    [current_line_number] returns [lines_read_ - 1] reduced modulo the
    range of [size_t], the largest value of the type; adding 1, as the
    handler does, gives 0. *)
Theorem current_line_number_before_read {U : Utils} :
  current_line_number new_reader = size_modulus - 1
  /\ size_t (current_line_number new_reader + 1) = 0.
Proof.
  pose proof size_modulus_gt_1 as H.
  assert (E : current_line_number new_reader = size_modulus - 1).
  { unfold current_line_number, size_t. simpl.
    symmetry. apply Z.mod_unique with (q := -1); lia. }
  split; trivial.
  rewrite E. unfold size_t.
  replace (size_modulus - 1 + 1) with (1 * size_modulus) by lia.
  apply Z.mod_mul. lia.
Qed.

(** C9, as stated, fails: with a 64-bit [size_t] the call on a new reader
    returns 2^64 - 1. *)
Lemma current_line_number_wraps :
  @current_line_number spec_utils new_reader = 18446744073709551615.
Proof. vm_compute. reflexivity. Qed.

(** * The result on well-formed input *)

Section Runs.

Context {U : Utils}.

Lemma fold_lines_app (l1 l2 : list string) (v : Locals) :
  fold_lines (l1 ++ l2) v = (v' <- fold_lines l1 v ;; fold_lines l2 v').
Proof.
  revert v. induction l1 as [|l l1 IH]; intros v; simpl; trivial.
  destruct (process_line l v); simpl; trivial.
Qed.

Lemma valid_record_representable (region_name : string) (i : interval_record) :
  valid_record region_name i ->
  representable (record_end i - record_start i) = true.
Proof.
  intros [Hd Hmax]. unfold representable, int_min.
  pose proof (bounds _ _ _ _ Hd).
  assert (0 < 2 ^ (Z.pos int_bits - 1)) by (apply Z.pow_pos_nonneg; lia).
  apply andb_true_intro. split; apply Z.leb_le; lia.
Qed.

(** A record of the open region adds its point to the accumulator. *)
Lemma process_line_same_region (i : interval_record) (v : Locals) :
  valid_record (current_region_name v) i ->
  process_line (record_line i) v
  = Return (mkLocals (regions v)
                     (current_region_points v ++ [record_point i])
                     (current_region_name v)).
Proof.
  intros Hi. pose proof (valid_record_representable _ _ Hi) as Hr.
  destruct Hi as [Hd _]. rewrite (process_line_data _ _ _ _ v Hd).
  unfold start_region, int_sub. rewrite String.eqb_refl, Hr. reflexivity.
Qed.

(** A record of another region stores the open one and starts afresh. *)
Lemma process_line_new_region (region_name : string) (i : interval_record)
    (v : Locals) :
  valid_record region_name i ->
  region_name <> "" ->
  region_name <> current_region_name v ->
  process_line (record_line i) v
  = Return (mkLocals (with_open_region v) [record_point i] region_name).
Proof.
  intros Hi Hne Hdiff. pose proof (valid_record_representable _ _ Hi) as Hr.
  destruct Hi as [Hd _]. rewrite (process_line_data _ _ _ _ v Hd).
  unfold start_region, int_sub, with_open_region. rewrite Hr.
  apply String.eqb_neq in Hdiff. rewrite Hdiff.
  apply empty_false in Hne. rewrite Hne. simpl.
  destruct (empty (current_region_name v)); reflexivity.
Qed.

Lemma fold_lines_same_region (records : list interval_record) (v : Locals) :
  Forall (valid_record (current_region_name v)) records ->
  fold_lines (map record_line records) v
  = Return (mkLocals (regions v)
                     (current_region_points v ++ map record_point records)
                     (current_region_name v)).
Proof.
  revert v. induction records as [|i records IH]; intros v Hall; simpl.
  - rewrite app_nil_r. now destruct v.
  - inversion Hall as [|? ? Hi Hrest]; subst.
    rewrite (process_line_same_region _ _ Hi). simpl.
    rewrite IH by exact Hrest. simpl. now rewrite <- app_assoc.
Qed.

(** A whole run, read when another region or none is open. *)
Lemma fold_lines_run (r : run) (v : Locals) :
  valid_run r ->
  fst r <> current_region_name v ->
  fold_lines (run_lines r) v
  = Return (mkLocals (with_open_region v) (run_points r) (fst r)).
Proof.
  destruct r as [region_name records]. unfold run_lines, run_points. simpl.
  intros (Hne & Hrecords & Hall) Hdiff. simpl in Hne, Hrecords, Hall.
  destruct records as [|i records]; [contradiction|].
  inversion Hall as [|? ? Hi Hrest]; subst. simpl.
  rewrite (process_line_new_region _ _ v Hi Hne Hdiff). simpl.
  rewrite fold_lines_same_region by exact Hrest. reflexivity.
Qed.

Lemma last_cons_default {A : Type} (l : list A) (x d : A) :
  last (x :: l) d = last l x.
Proof.
  revert x d. induction l as [|y l IH]; intros x d; [reflexivity|].
  change (last (x :: y :: l) d) with (last (y :: l) d).
  now rewrite (IH y d), (IH y x).
Qed.

(** After a run, the runs that follow: each boundary stores the run
    before it, and the last run stays in the accumulator. *)
Lemma fold_lines_runs (runs : list run) (r : run) (stored : list ProcessRegionData) :
  Forall valid_run (r :: runs) ->
  names_change (r :: runs) ->
  fold_lines (runs_lines runs) (mkLocals stored (run_points r) (fst r))
  = Return (mkLocals (stored ++ map seal (removelast (r :: runs)))
                     (run_points (last runs r))
                     (fst (last runs r))).
Proof.
  revert r stored. induction runs as [|r' runs IH]; intros r stored Hall Hnames.
  - simpl. now rewrite app_nil_r.
  - inversion Hall as [|? ? Hr Hrest]; subst.
    destruct Hnames as [Hdiff Hnames].
    inversion Hrest as [|? ? Hr' _]; subst.
    unfold runs_lines. simpl map. simpl List.concat. rewrite fold_lines_app.
    rewrite fold_lines_run; trivial; [|simpl; congruence].
    simpl bind. unfold with_open_region. simpl.
    destruct Hr as (Hne & _). apply empty_false in Hne. rewrite Hne.
    fold (runs_lines runs). rewrite (IH r' _ Hrest Hnames).
    rewrite <- app_assoc, <- (last_cons_default runs r' r). reflexivity.
Qed.

(** X19. The result on a file that is a sequence of runs: one entry per
    run, in file order, for every run but the last. *)
Theorem read_points_of_runs (runs : list run) :
  Forall valid_run runs ->
  names_change runs ->
  read_points_from_bed_file (mkFILE (runs_lines runs) clean_eof)
  = Return (map seal (removelast runs)).
Proof.
  intros Hall Hnames. apply read_points_returns. split; trivial. simpl.
  destruct runs as [|r runs].
  - exists initial_locals. split; reflexivity.
  - inversion Hall as [|? ? Hr _]; subst.
    unfold runs_lines. simpl map. simpl List.concat. rewrite fold_lines_app.
    rewrite fold_lines_run; trivial.
    2:{ simpl. destruct Hr as (Hne & _). exact Hne. }
    simpl bind. fold (runs_lines runs).
    change (with_open_region initial_locals) with (@nil ProcessRegionData).
    rewrite (fold_lines_runs runs r [] Hall Hnames).
    eexists. split; reflexivity.
Qed.

End Runs.

(** The theorem at three runs, the first and the last named [chr1]. *)
Example read_points_of_three_runs :
  read_points_from_bed_file
    (mkFILE [bed_line "chr1" "30" "50"; bed_line "chr1" "10" "20";
             bed_line "chr2" "5" "9"; bed_line "chr1" "1" "2"] clean_eof)
  = Return [region "chr1" [5; 10]; region "chr2" [2]].
Proof.
  apply (read_points_of_runs (U := spec_utils)
           [("chr1", [mkInterval (bed_line "chr1" "30" "50") 30 50;
                      mkInterval (bed_line "chr1" "10" "20") 10 20]);
            ("chr2", [mkInterval (bed_line "chr2" "5" "9") 5 9]);
            ("chr1", [mkInterval (bed_line "chr1" "1" "2") 1 2])]).
  - repeat constructor; try discriminate; vm_compute; trivial; discriminate.
  - repeat split; discriminate.
Defined.

(** * Reach of the empty-name check *)

Lemma start_region_initial {U : Utils} (region_name : string) (e : exception) :
  start_region region_name initial_locals <> Throw e.
Proof.
  intros H. apply start_region_throws in H. destruct H as (_ & _ & H).
  now apply H.
Qed.

Module SpecUtilsFacts.

Lemma trim_left_head (ws : ascii -> bool) (s : string) :
  SpecUtils.trim_left ws s = EmptyString
  \/ exists c t, SpecUtils.trim_left ws s = String c t /\ ws c = false.
Proof.
  induction s as [|c s IH]; simpl; [now left|].
  destruct (ws c) eqn:E; trivial. right. eauto.
Qed.

Lemma trim_right_head (ws : ascii -> bool) (c : ascii) (s : string) :
  ws c = false ->
  exists t, SpecUtils.trim_right ws (String c s) = String c t.
Proof.
  intros E. simpl. destruct (SpecUtils.trim_right ws s); rewrite ?E; eauto.
Qed.

Lemma split_head (sep c : ascii) (s : string) :
  Ascii.eqb c sep = false ->
  exists field fields,
    SpecUtils.split sep (String c s) = String c field :: fields.
Proof.
  intros E. simpl. rewrite E. destruct (SpecUtils.split sep s); eauto.
Qed.

(** After [trim_ws] a line with three fields has a first field that is not
    empty: the trimmed line does not start with a tab. *)
Lemma first_field_not_empty (l : string) :
  (3 <= List.length (SpecUtils.split tab (SpecUtils.trim_ws l)))%nat ->
  nth 0 (SpecUtils.split tab (SpecUtils.trim_ws l)) "" <> "".
Proof.
  unfold SpecUtils.trim_ws, SpecUtils.trim.
  destruct (trim_left_head SpecUtils.is_space l) as [E|(c & t & E & Hc)];
    rewrite E.
  - simpl. lia.
  - destruct (trim_right_head SpecUtils.is_space c t Hc) as (t' & ->).
    assert (Htab : Ascii.eqb c tab = false).
    { apply Ascii.eqb_neq. intros ->. vm_compute in Hc. discriminate. }
    destruct (split_head tab c t' Htab) as (f & fs & ->). simpl. discriminate.
Qed.

(** With the helpers of [spec_utils] the body never throws the empty-name
    error. *)
Lemma process_line_never_empty_name (l : string) (v : Locals) :
  @process_line spec_utils l v <> Throw EmptyRegionName.
Proof.
  unfold process_line. cbn [trim_ws starts_with split spec_utils].
  destruct (SpecUtils.starts_with "#" (SpecUtils.trim_ws l));
    [discriminate|].
  destruct (3 <=? List.length (SpecUtils.split tab (SpecUtils.trim_ws l)))%nat
    eqn:H3; cbn [negb throw_if bind]; [|discriminate].
  apply Nat.leb_le, first_field_not_empty in H3.
  unfold parse_int_or_throw. cbn [parse_int spec_utils].
  unfold SpecUtils.parse_int.
  destruct (SpecUtils.signed_decimal (nth 1 _ "")) as [a|];
    cbn [bind]; [|discriminate].
  destruct (_ && _); cbn [bind]; [|discriminate].
  destruct (SpecUtils.signed_decimal (nth 2 _ "")) as [b|];
    cbn [bind]; [|discriminate].
  destruct (_ && _); cbn [bind]; [|discriminate].
  destruct (a <? b); cbn [negb throw_if bind]; [|discriminate].
  destruct (start_region _ v) as [v1| |] eqn:Hs; cbn [bind].
  - unfold int_sub. destruct (representable (b - a)); discriminate.
  - apply start_region_throws in Hs. destruct Hs as (_ & Hs & _).
    contradiction.
  - discriminate.
Qed.

End SpecUtilsFacts.



(** * Further properties *)

(** ** The reader over a stream *)

Section ReaderOverStream.

Context {U : Utils}.

Lemma size_t_0 : size_t 0 = 0.
Proof. unfold size_t. apply Z.mod_0_l. pose proof size_modulus_pos. lia. Qed.

Lemma size_t_minus_l (a b : Z) : size_t (size_t a - b) = size_t (a - b).
Proof. unfold size_t. apply Zminus_mod_idemp_l. Qed.

Lemma skipn_nth_error {A : Type} (l : list A) (n : nat) (x : A) :
  nth_error l n = Some x -> skipn n l = x :: skipn (S n) l.
Proof.
  revert n. induction l as [|y l IH]; intros [|n] H; simpl in H;
    try discriminate.
  - now injection H as ->.
  - apply IH in H. exact H.
Qed.

Lemma after_reads_add (a b : nat) (file : FILE) (reader : LineByLineReader) :
  after_reads (a + b) file reader
  = after_reads b (fst (after_reads a file reader))
                  (snd (after_reads a file reader)).
Proof.
  revert file reader. induction a as [|a IH]; intros file reader; simpl; trivial.
Qed.

(** Reading [n] lines that the stream holds: the stream has moved past
    them and each was counted. *)
Lemma after_reads_lines (n : nat) (lines : list string) (fin : stream_end)
    (reader : LineByLineReader) (m : Z) :
  (n <= List.length lines)%nat ->
  lines_read_ reader = size_t m ->
  fst (after_reads n (mkFILE lines fin) reader) = mkFILE (skipn n lines) fin
  /\ lines_read_ (snd (after_reads n (mkFILE lines fin) reader))
     = size_t (m + Z.of_nat n).
Proof.
  revert lines reader m. induction n as [|n IH]; intros lines reader m Hn Hm.
  - simpl. split; trivial. rewrite Hm. f_equal. lia.
  - destruct lines as [|l rest]; simpl in Hn; [lia|].
    change (after_reads (S n) (mkFILE (l :: rest) fin) reader)
      with (after_reads n (mkFILE rest fin) (after_line l reader)).
    destruct (IH rest (after_line l reader) (m + 1)) as [Hf Hr]; [lia| |].
    + rewrite lines_read_after_line, Hm. apply size_t_plus_l.
    + split; trivial. rewrite Hr. f_equal. lia.
Qed.

(** Calls at the end of the stream leave the stream and the count as they
    are. *)
Lemma after_reads_at_end (k : nat) (fin : stream_end) (reader : LineByLineReader) :
  fst (after_reads k (mkFILE [] fin) reader) = mkFILE [] fin
  /\ lines_read_ (snd (after_reads k (mkFILE [] fin) reader))
     = lines_read_ reader.
Proof.
  revert reader. induction k as [|k IH]; intros reader; [now split|].
  destruct fin as [|c].
  - change (after_reads (S k) (mkFILE [] clean_eof) reader)
      with (after_reads k (mkFILE [] clean_eof)
              (mkReader None (current_line_size_ reader) (lines_read_ reader))).
    exact (IH (mkReader None (current_line_size_ reader) (lines_read_ reader))).
  - change (after_reads (S k) (mkFILE [] (io_failure c)) reader)
      with (after_reads k (mkFILE [] (io_failure c)) reader).
    apply IH.
Qed.

Lemma after_all_lines (k : nat) (lines : list string) (fin : stream_end) :
  fst (after_reads (List.length lines + k) (mkFILE lines fin) new_reader)
    = mkFILE [] fin
  /\ lines_read_
       (snd (after_reads (List.length lines + k) (mkFILE lines fin) new_reader))
     = size_t (Z.of_nat (List.length lines)).
Proof.
  rewrite after_reads_add.
  destruct (after_reads_lines (List.length lines) lines fin new_reader 0)
    as [Hf Hr]; [lia | simpl; now rewrite size_t_0 |].
  rewrite Hf, skipn_all.
  destruct (after_reads_at_end k fin
              (snd (after_reads (List.length lines) (mkFILE lines fin)
                      new_reader))) as [Hf' Hr'].
  split; trivial. now rewrite Hr', Hr.
Qed.

End ReaderOverStream.

(** X1. The call number [n + 1] on a new reader returns true, and then
    [current_line] is line [n] of the stream (counted from 0) with its
    length, and [current_line_number] is [n]. *)
Theorem reads_deliver_lines {U : Utils} (lines : list string) (fin : stream_end)
    (n : nat) (l : string) :
  nth_error lines n = Some l ->
  Z.of_nat n < size_modulus ->
  exists reader',
    read_from (fst (after_reads n (mkFILE lines fin) new_reader))
              (snd (after_reads n (mkFILE lines fin) new_reader))
    = (Return true, (mkFILE (skipn (S n) lines) fin, reader'))
    /\ current_line reader' = Return l
    /\ current_line_size_ reader' = Z.of_nat (String.length l)
    /\ current_line_number reader' = Z.of_nat n.
Proof.
  intros Hnth Hsmall.
  assert (Hlen : (n < List.length lines)%nat)
    by (apply nth_error_Some; congruence).
  destruct (after_reads_lines n lines fin new_reader 0) as [Hf Hr];
    [lia | symmetry; apply size_t_0 |].
  rewrite Hf, (skipn_nth_error lines n l Hnth).
  exists (after_line l (snd (after_reads n (mkFILE lines fin) new_reader))).
  repeat split.
  unfold current_line_number. rewrite lines_read_after_line, Hr.
  rewrite size_t_plus_l, size_t_minus_l. simpl.
  rewrite size_t_small; lia.
Qed.

Lemma reads_deliver_lines_witness :
  exists reader',
    read_from (fst (after_reads 2 three_line_file new_reader))
              (snd (after_reads 2 three_line_file new_reader))
    = (Return true, (mkFILE [] clean_eof, reader'))
    /\ current_line reader' = Return (bed_line "chr2" "5" "9")
    /\ current_line_size_ reader' = 9
    /\ current_line_number reader' = 2.
Proof.
  apply (reads_deliver_lines (U := spec_utils) (pending three_line_file)
           clean_eof 2 (bed_line "chr2" "5" "9")).
  - reflexivity.
  - vm_compute. reflexivity.
Defined.

(** X2. Once every line of a stream that ends cleanly has been read, each
    further call returns false, leaves no current line ([current_line]
    throws) and does not change the count of lines read. *)
Theorem read_past_clean_end {U : Utils} (lines : list string) (k : nat) :
  exists reader',
    read_from
      (fst (after_reads (List.length lines + k) (mkFILE lines clean_eof)
              new_reader))
      (snd (after_reads (List.length lines + k) (mkFILE lines clean_eof)
              new_reader))
    = (Return false, (mkFILE [] clean_eof, reader'))
    /\ current_line reader' = Throw NoCurrentLine
    /\ lines_read_ reader' = size_t (Z.of_nat (List.length lines)).
Proof.
  destruct (after_all_lines k lines clean_eof) as [Hf Hr].
  rewrite Hf. eexists. split; [reflexivity|]. split; [reflexivity|].
  exact Hr.
Qed.

(** X3. When the stream fails after its lines, the call that follows the
    last line throws a [system_error] with the error code of the failure,
    and the failed call is not counted as a line. *)
Theorem read_after_io_failure {U : Utils} (lines : list string) (errno : Z) :
  exists reader',
    read_from
      (fst (after_reads (List.length lines) (mkFILE lines (io_failure errno))
              new_reader))
      (snd (after_reads (List.length lines) (mkFILE lines (io_failure errno))
              new_reader))
    = (Throw (system_error errno), (mkFILE [] (io_failure errno), reader'))
    /\ lines_read_ reader' = size_t (Z.of_nat (List.length lines)).
Proof.
  destruct (after_all_lines 0 lines (io_failure errno)) as [Hf Hr].
  rewrite Nat.add_0_r in Hf, Hr.
  rewrite Hf. eexists. split; [reflexivity|]. exact Hr.
Qed.

(** ** Comment lines *)

Section CommentLines.

Context {U : Utils}.

Lemma process_line_comment (l : string) (v : Locals) :
  is_comment l = true -> process_line l v = Return v.
Proof. unfold is_comment, process_line. now intros ->. Qed.

Lemma fold_lines_data_lines (lines : list string) (v : Locals) :
  fold_lines lines v = fold_lines (data_lines lines) v.
Proof.
  revert v. induction lines as [|l lines IH]; intros v; simpl; trivial.
  destruct (is_comment l) eqn:Hc; simpl.
  - rewrite (process_line_comment l v Hc). simpl. apply IH.
  - destruct (process_line l v); simpl; trivial.
Qed.

End CommentLines.

(** X4. Comment lines have no influence on the result: a file that ends
    cleanly returns a sequence exactly when the file without its comment
    lines returns that sequence. *)
Theorem comment_lines_ignored {U : Utils} (lines : list string)
    (result : list ProcessRegionData) :
  read_points_from_bed_file (mkFILE lines clean_eof) = Return result
  <-> read_points_from_bed_file (mkFILE (data_lines lines) clean_eof)
      = Return result.
Proof.
  rewrite !read_points_returns. simpl.
  now rewrite (fold_lines_data_lines lines initial_locals).
Qed.

(** X5. A file without data lines, empty or made of comment lines only,
    returns the empty sequence. *)
Theorem no_data_lines_no_regions {U : Utils} (lines : list string) :
  (forall l, In l lines -> is_comment l = true) ->
  read_points_from_bed_file (mkFILE lines clean_eof) = Return [].
Proof.
  intros Hall. apply read_points_returns. split; trivial. simpl.
  exists initial_locals. split; trivial.
  rewrite fold_lines_data_lines.
  replace (data_lines lines) with (@nil string); trivial.
  symmetry. unfold data_lines.
  induction lines as [|l lines IH]; simpl; trivial.
  rewrite (Hall l) by now left. simpl. apply IH.
  intros l' Hin. apply Hall. now right.
Qed.

Lemma no_data_lines_no_regions_witness :
  read_points_from_bed_file
    (mkFILE ["# header" ++ LF; "  # indented" ++ LF] clean_eof)
  = Return [].
Proof.
  apply (no_data_lines_no_regions (U := spec_utils)).
  intros l [<-|[<-|[]]]; vm_compute; reflexivity.
Defined.

(** ** Invariants of the stored regions *)

Section StoredRegions.

Context {U : Utils}.

Lemma from_unsorted_not_nil (points : list Point) :
  points <> [] -> sorted_points (from_unsorted points) <> [].
Proof.
  intros Hne Hnil. apply Hne. apply Permutation_nil.
  rewrite <- Hnil. symmetry. apply from_unsorted_Permutation.
Qed.

Lemma process_line_filled (l : string) (v v' : Locals) :
  regions_filled v -> process_line l v = Return v' -> regions_filled v'.
Proof.
  intros [Hr Hp] Hl. apply process_line_returns in Hl.
  destruct Hl as [(_ & ->)|(region_name & a & b & v1 & _ & Hs & _ & ->)];
    [now split|].
  split; simpl.
  - apply start_region_returns in Hs.
    destruct Hs as [(_ & ->)|[(_ & _ & _ & ->)|(_ & _ & Hopen & ->)]];
      simpl; trivial.
    apply Forall_app. split; trivial.
    constructor; [|constructor]. simpl. split; trivial.
    apply from_unsorted_not_nil. now apply Hp.
  - intros _. now destruct (current_region_points v1).
Qed.

Lemma fold_lines_regions_extend (lines : list string) (v v' : Locals) :
  fold_lines lines v = Return v' ->
  exists more, regions v' = (regions v ++ more)%list.
Proof.
  apply (fold_lines_invariant
           (fun w => exists more, regions w = (regions v ++ more)%list)).
  - intros l w w' (more & Hw) Hl. apply process_line_returns in Hl.
    destruct Hl as [(_ & ->)|(region_name & a & b & v1 & _ & Hs & _ & ->)];
      [now exists more|].
    simpl. apply start_region_returns in Hs.
    destruct Hs as [(_ & ->)|[(_ & _ & _ & ->)|(_ & _ & _ & ->)]]; simpl.
    + now exists more.
    + now exists more.
    + eexists. rewrite Hw, <- app_assoc. reflexivity.
  - exists []. now rewrite app_nil_r.
Qed.

End StoredRegions.

(** X6. Every region entry of a returned sequence has a name that is not
    empty and holds at least one point. *)
Theorem result_regions_filled {U : Utils} (file : FILE)
    (result : list ProcessRegionData) :
  read_points_from_bed_file file = Return result ->
  forall r, In r result -> name r <> "" /\ sorted_points (data r) <> [].
Proof.
  intros Hread r Hin.
  apply read_points_returns in Hread. destruct Hread as (_ & v & Hfold & ->).
  assert (Hs : regions_filled v).
  { apply (fold_lines_invariant regions_filled process_line_filled
             (pending file) initial_locals); trivial.
    split; [constructor|]. intros H. now destruct H. }
  destruct Hs as [Hs _]. rewrite Forall_forall in Hs. now apply Hs.
Qed.

Lemma result_regions_filled_witness :
  read_points_from_bed_file four_runs_file
  = Return [region "chr1" [5]; region "chr2" [0; 2]; region "chr1" [10]]
  /\ forall r,
       In r [region "chr1" [5]; region "chr2" [0; 2]; region "chr1" [10]] ->
       name r <> "" /\ sorted_points (data r) <> [].
Proof.
  split.
  - vm_compute. reflexivity.
  - apply (result_regions_filled (U := spec_utils) four_runs_file).
    vm_compute. reflexivity.
Defined.

(** X7. Lines added at the end of a file leave the entries returned for
    the file in place: the result of the longer file starts with the
    result of the shorter one. *)
Theorem result_extends_with_lines {U : Utils} (lines more_lines : list string)
    (result result' : list ProcessRegionData) :
  read_points_from_bed_file (mkFILE lines clean_eof) = Return result ->
  read_points_from_bed_file (mkFILE (lines ++ more_lines) clean_eof)
    = Return result' ->
  exists more, result' = (result ++ more)%list.
Proof.
  intros H1 H2.
  apply read_points_returns in H1. destruct H1 as (_ & v & Hv & ->).
  apply read_points_returns in H2. destruct H2 as (_ & v' & Hv' & ->).
  simpl in Hv, Hv'. rewrite fold_lines_app, Hv in Hv'. simpl in Hv'.
  now apply fold_lines_regions_extend with (lines := more_lines).
Qed.

Lemma result_extends_with_lines_witness :
  exists more,
    [region "chr1" [5]; region "chr2" [0; 2]; region "chr1" [10]]
    = ([region "chr1" [5]] ++ more)%list.
Proof.
  apply (result_extends_with_lines (U := spec_utils)
           [bed_line "chr1" "10" "20"; bed_line "chr2" "5" "9"]
           [bed_line "chr2" "1" "2"; bed_line "chr1" "30" "50";
            bed_line "chrX" "0" "4"]).
  - vm_compute. reflexivity.
  - vm_compute. reflexivity.
Defined.

(** ** Names and number of the stored regions *)

Section RegionNames.

Context {U : Utils}.

Lemma differ_adjacent_snoc (names : list string) (a b : string) :
  differ_adjacent (names ++ [a]) -> a <> b ->
  differ_adjacent ((names ++ [a]) ++ [b]).
Proof.
  induction names as [|x names IH]; simpl; intros Hd Hab; [now split|].
  destruct names as [|y names]; simpl in *.
  - destruct Hd as [Hxa _]. repeat split; trivial.
  - destruct Hd as [Hxy Hd]. split; trivial. now apply IH.
Qed.

Lemma differ_adjacent_init (names : list string) (a : string) :
  differ_adjacent (names ++ [a]) -> differ_adjacent names.
Proof.
  induction names as [|x names IH]; simpl; trivial.
  destruct names as [|y names]; simpl in *; trivial.
  intros [Hxy Hd]. split; trivial. now apply IH.
Qed.

Lemma differ_adjacent_nth (names : list string) (i : nat) (a b : string) :
  differ_adjacent names ->
  nth_error names i = Some a -> nth_error names (S i) = Some b -> a <> b.
Proof.
  revert i. induction names as [|x names IH]; intros i Hd Ha Hb;
    [now destruct i|].
  destruct names as [|y names]; [now destruct i|].
  destruct Hd as [Hxy Hd].
  destruct i as [|i]; simpl in Ha, Hb.
  - congruence.
  - now apply (IH i).
Qed.

Lemma process_line_names_differ (l : string) (v v' : Locals) :
  names_differ v -> process_line l v = Return v' -> names_differ v'.
Proof.
  intros [Hd He] Hl. apply process_line_returns in Hl.
  destruct Hl as [(_ & ->)|(region_name & a & b & v1 & _ & Hs & _ & ->)];
    [now split|].
  unfold names_differ. simpl. apply start_region_returns in Hs.
  destruct Hs as [(_ & ->)|[(Hn & Hne & Hcur & ->)|(Hn & Hne & Hcur & ->)]];
    simpl.
  - now split.
  - rewrite (He Hcur). simpl. split; trivial.
  - split.
    + rewrite map_app. simpl. apply differ_adjacent_snoc; trivial. congruence.
    + intros ->. now destruct Hne.
Qed.

Lemma fold_lines_count (lines : list string) (v v' : Locals) :
  names_differ v ->
  fold_lines lines v = Return v' ->
  (List.length (regions v') + open_regions v'
   <= List.length (regions v) + open_regions v + List.length lines)%nat.
Proof.
  revert v. induction lines as [|l lines IH]; intros v Hv Hf; simpl in Hf.
  - injection Hf as <-. simpl. lia.
  - destruct (process_line l v) as [v1| |] eqn:Hl; simpl in Hf;
      try discriminate.
    pose proof (process_line_names_differ _ _ _ Hv Hl) as Hv1.
    specialize (IH v1 Hv1 Hf). simpl List.length.
    enough (List.length (regions v1) + open_regions v1
            <= List.length (regions v) + open_regions v + 1)%nat by lia.
    clear IH Hf Hv1. apply process_line_returns in Hl.
    destruct Hl as [(_ & ->)|(region_name & a & b & v1' & _ & Hs & _ & ->)];
      [lia|].
    unfold open_regions. simpl. apply start_region_returns in Hs.
    destruct Hs as [(_ & ->)|[(Hn & Hne & Hcur & ->)|(Hn & Hne & Hcur & ->)]];
      simpl.
    + lia.
    + apply empty_false in Hne. apply empty_true in Hcur.
      rewrite Hne, Hcur. lia.
    + apply empty_false in Hne. apply empty_false in Hcur.
      rewrite Hne, Hcur, length_app. simpl. lia.
Qed.

Lemma initial_names_differ : names_differ initial_locals.
Proof. now split. Qed.

End RegionNames.

(** X8. Neighbours in a returned sequence never have the same name. *)
Theorem result_neighbours_differ {U : Utils} (file : FILE)
    (result : list ProcessRegionData) :
  read_points_from_bed_file file = Return result ->
  forall i r1 r2,
    nth_error result i = Some r1 -> nth_error result (S i) = Some r2 ->
    name r1 <> name r2.
Proof.
  intros Hread i r1 r2 H1 H2.
  apply read_points_returns in Hread. destruct Hread as (_ & v & Hfold & ->).
  assert (Hs : names_differ v).
  { apply (fold_lines_invariant names_differ process_line_names_differ
             (pending file) initial_locals); trivial.
    apply initial_names_differ. }
  destruct Hs as [Hs _]. apply differ_adjacent_init in Hs.
  apply (differ_adjacent_nth (map name (regions v)) i); trivial.
  - now apply map_nth_error.
  - now apply map_nth_error.
Qed.

Lemma result_neighbours_differ_witness :
  name (region "chr2" [0; 2]) <> name (region "chr1" [10]).
Proof.
  apply (result_neighbours_differ (U := spec_utils) four_runs_file
           [region "chr1" [5]; region "chr2" [0; 2]; region "chr1" [10]]
           ltac:(vm_compute; reflexivity) 1);
    reflexivity.
Defined.

(** X9. A returned sequence has fewer entries than the file has lines,
    unless both are empty: every entry took a line of its own and one more
    line opened the region that was left out. *)
Theorem result_shorter_than_file {U : Utils} (file : FILE)
    (result : list ProcessRegionData) :
  read_points_from_bed_file file = Return result ->
  result = [] \/ (List.length result < List.length (pending file))%nat.
Proof.
  intros Hread.
  apply read_points_returns in Hread. destruct Hread as (_ & v & Hfold & ->).
  assert (Hs : names_differ v).
  { apply (fold_lines_invariant names_differ process_line_names_differ
             (pending file) initial_locals); trivial.
    apply initial_names_differ. }
  pose proof (fold_lines_count _ _ _ initial_names_differ Hfold) as Hc.
  simpl in Hc. destruct Hs as [_ He].
  unfold open_regions in Hc.
  destruct (empty (current_region_name v)) eqn:E.
  - left. apply He. now apply empty_true.
  - right. lia.
Qed.

Lemma result_shorter_than_file_witness :
  [region "chr1" [5]; region "chr2" [0; 2]; region "chr1" [10]] = []
  \/ lt (List.length
             [region "chr1" [5]; region "chr2" [0; 2]; region "chr1" [10]])
          (List.length (pending four_runs_file)).
Proof.
  apply (result_shorter_than_file (U := spec_utils) four_runs_file).
  vm_compute. reflexivity.
Defined.

(** ** Failure of the whole call *)

(** X10. A stream that fails never gives a result, whatever its lines
    are. *)
Theorem no_result_on_io_failure {U : Utils} (lines : list string) (errno : Z)
    (result : list ProcessRegionData) :
  read_points_from_bed_file (mkFILE lines (io_failure errno)) <> Return result.
Proof.
  intros H. apply read_points_returns in H. destruct H as [H _]. discriminate.
Qed.

(** X12. The first line on which the body throws decides the error: the
    lines after it and the way the stream ends have no influence. *)
Theorem first_failure_decides {U : Utils} (pre post : list string) (l : string)
    (fin : stream_end) (v : Locals) (e : exception) :
  fold_lines pre initial_locals = Return v ->
  process_line l v = Throw e ->
  read_points_from_bed_file (mkFILE (pre ++ l :: post) fin)
  = read_points_from_bed_file (mkFILE (pre ++ [l]) clean_eof).
Proof.
  intros Hpre Hl.
  destruct (read_points_throws_at pre post l fin v e Hpre Hl)
    as (_ & _ & _ & ->).
  destruct (read_points_throws_at pre [] l clean_eof v e Hpre Hl)
    as (_ & _ & _ & ->).
  reflexivity.
Qed.

Lemma first_failure_decides_witness :
  read_points_from_bed_file
    (mkFILE ([bed_line "chr1" "10" "20"] ++ bed_line "chr1" "20" "10"
               :: [bed_line "chr2" "x" "y"; "junk"]) (io_failure 5))
  = read_points_from_bed_file
      (mkFILE ([bed_line "chr1" "10" "20"] ++ [bed_line "chr1" "20" "10"])
              clean_eof).
Proof.
  apply (first_failure_decides (U := spec_utils)
           [bed_line "chr1" "10" "20"] [bed_line "chr2" "x" "y"; "junk"]
           (bed_line "chr1" "20" "10") (io_failure 5)
           (mkLocals [] [5] "chr1") InvalidInterval).
  - vm_compute. reflexivity.
  - vm_compute. reflexivity.
Defined.

(** ** The order of the checks on a line *)

Section LineChecks.

Context {U : Utils}.

Lemma process_line_too_few_fields (l : string) (v : Locals) :
  is_comment l = false ->
  (List.length (fields_of l) < 3)%nat ->
  process_line l v = Throw MalformedLine.
Proof.
  unfold is_comment, fields_of, process_line. intros -> Hlen.
  apply Nat.leb_gt in Hlen. now rewrite Hlen.
Qed.

Lemma process_line_bad_start (l message : string) (v : Locals) :
  is_comment l = false ->
  (3 <= List.length (fields_of l))%nat ->
  parse_int (nth 1 (fields_of l) "") "interval_position_start" = inr message ->
  process_line l v = Throw (runtime_error message).
Proof.
  unfold is_comment, fields_of, process_line, parse_int_or_throw.
  intros -> Hlen Hs. apply Nat.leb_le in Hlen. now rewrite Hlen, Hs.
Qed.

Lemma process_line_bad_end (l message : string) (a : Z) (v : Locals) :
  is_comment l = false ->
  (3 <= List.length (fields_of l))%nat ->
  parse_int (nth 1 (fields_of l) "") "interval_position_start" = inl a ->
  parse_int (nth 2 (fields_of l) "") "interval_position_end" = inr message ->
  process_line l v = Throw (runtime_error message).
Proof.
  unfold is_comment, fields_of, process_line, parse_int_or_throw.
  intros -> Hlen Hs He. apply Nat.leb_le in Hlen. now rewrite Hlen, Hs, He.
Qed.

Lemma process_line_bad_bounds (l : string) (a b : Z) (v : Locals) :
  is_comment l = false ->
  (3 <= List.length (fields_of l))%nat ->
  parse_int (nth 1 (fields_of l) "") "interval_position_start" = inl a ->
  parse_int (nth 2 (fields_of l) "") "interval_position_end" = inl b ->
  b <= a ->
  process_line l v = Throw InvalidInterval.
Proof.
  unfold is_comment, fields_of, process_line, parse_int_or_throw.
  intros -> Hlen Hs He Hab. apply Nat.leb_le in Hlen.
  rewrite Hlen, Hs, He. simpl.
  replace (a <? b) with false; [reflexivity|].
  symmetry. apply Z.ltb_ge. exact Hab.
Qed.

End LineChecks.

(** X13. A line that is not a comment and has fewer than three fields is
    a malformed line, whatever its fields are; a blank line is one. *)
Theorem too_few_fields_rejected {U : Utils} (pre post : list string)
    (l : string) (fin : stream_end) (v : Locals) :
  fold_lines pre initial_locals = Return v ->
  is_comment l = false ->
  (List.length (fields_of l) < 3)%nat ->
  read_points_from_bed_file (mkFILE (pre ++ l :: post) fin)
  = Throw (runtime_error
             (format_context (size_t (Z.of_nat (List.length pre) + 1))
                             (what MalformedLine))).
Proof.
  intros Hpre Hc Hlen.
  pose proof (process_line_too_few_fields l v Hc Hlen) as Hl.
  destruct (read_points_throws_at pre post l fin v _ Hpre Hl)
    as (_ & _ & _ & Hread).
  exact Hread.
Qed.

Lemma too_few_fields_rejected_witness :
  read_points_from_bed_file
    (mkFILE ([bed_line "chr1" "10" "20"] ++ ("   " ++ LF)
               :: [bed_line "chr2" "5" "9"]) clean_eof)
  = Throw (runtime_error
             "Parsing BED file at line 2: Line must contain at least 3 fields: (region, start, end)").
Proof.
  apply (too_few_fields_rejected (U := spec_utils)
           [bed_line "chr1" "10" "20"] [bed_line "chr2" "5" "9"]
           ("   " ++ LF) clean_eof (mkLocals [] [5] "chr1")).
  - vm_compute. reflexivity.
  - vm_compute. reflexivity.
  - vm_compute. lia.
Defined.

(** X14. With three fields or more, a start position that [parse_int]
    refuses is reported with the message of [parse_int] for the start
    field, before the end position, the bounds and the name are looked
    at. *)
Theorem bad_start_position_rejected {U : Utils} (pre post : list string)
    (l message : string) (fin : stream_end) (v : Locals) :
  fold_lines pre initial_locals = Return v ->
  is_comment l = false ->
  (3 <= List.length (fields_of l))%nat ->
  parse_int (nth 1 (fields_of l) "") "interval_position_start" = inr message ->
  read_points_from_bed_file (mkFILE (pre ++ l :: post) fin)
  = Throw (runtime_error
             (format_context (size_t (Z.of_nat (List.length pre) + 1))
                             message)).
Proof.
  intros Hpre Hc Hlen Hs.
  pose proof (process_line_bad_start l message v Hc Hlen Hs) as Hl.
  destruct (read_points_throws_at pre post l fin v _ Hpre Hl)
    as (_ & _ & _ & Hread).
  exact Hread.
Qed.

Lemma bad_start_position_rejected_witness :
  read_points_from_bed_file
    (mkFILE ([] ++ bed_line "chr1" "x" "y" :: []) clean_eof)
  = Throw (runtime_error
             "Parsing BED file at line 1: Not an integer for interval_position_start").
Proof.
  apply (bad_start_position_rejected (U := spec_utils)
           [] [] (bed_line "chr1" "x" "y")
           "Not an integer for interval_position_start"
           clean_eof initial_locals).
  - reflexivity.
  - vm_compute. reflexivity.
  - vm_compute. lia.
  - vm_compute. reflexivity.
Defined.

(** X15. With a start position that parses, an end position that
    [parse_int] refuses is reported with the message of [parse_int] for
    the end field. *)
Theorem bad_end_position_rejected {U : Utils} (pre post : list string)
    (l message : string) (a : Z) (fin : stream_end) (v : Locals) :
  fold_lines pre initial_locals = Return v ->
  is_comment l = false ->
  (3 <= List.length (fields_of l))%nat ->
  parse_int (nth 1 (fields_of l) "") "interval_position_start" = inl a ->
  parse_int (nth 2 (fields_of l) "") "interval_position_end" = inr message ->
  read_points_from_bed_file (mkFILE (pre ++ l :: post) fin)
  = Throw (runtime_error
             (format_context (size_t (Z.of_nat (List.length pre) + 1))
                             message)).
Proof.
  intros Hpre Hc Hlen Hs He.
  pose proof (process_line_bad_end l message a v Hc Hlen Hs He) as Hl.
  destruct (read_points_throws_at pre post l fin v _ Hpre Hl)
    as (_ & _ & _ & Hread).
  exact Hread.
Qed.

Lemma bad_end_position_rejected_witness :
  read_points_from_bed_file
    (mkFILE (["# header" ++ LF] ++ bed_line "chr1" "10" "1e3" :: [])
            clean_eof)
  = Throw (runtime_error
             "Parsing BED file at line 2: Not an integer for interval_position_end").
Proof.
  apply (bad_end_position_rejected (U := spec_utils)
           ["# header" ++ LF] [] (bed_line "chr1" "10" "1e3")
           "Not an integer for interval_position_end" 10
           clean_eof initial_locals).
  - vm_compute. reflexivity.
  - vm_compute. reflexivity.
  - vm_compute. lia.
  - vm_compute. reflexivity.
  - vm_compute. reflexivity.
Defined.

(** X16. Positions with the end not above the start, equal positions
    included, are rejected as invalid bounds whatever the region name
    is. *)
Theorem bad_bounds_rejected {U : Utils} (pre post : list string)
    (l : string) (a b : Z) (fin : stream_end) (v : Locals) :
  fold_lines pre initial_locals = Return v ->
  is_comment l = false ->
  (3 <= List.length (fields_of l))%nat ->
  parse_int (nth 1 (fields_of l) "") "interval_position_start" = inl a ->
  parse_int (nth 2 (fields_of l) "") "interval_position_end" = inl b ->
  b <= a ->
  read_points_from_bed_file (mkFILE (pre ++ l :: post) fin)
  = Throw (runtime_error
             (format_context (size_t (Z.of_nat (List.length pre) + 1))
                             (what InvalidInterval))).
Proof.
  intros Hpre Hc Hlen Hs He Hab.
  pose proof (process_line_bad_bounds l a b v Hc Hlen Hs He Hab) as Hl.
  destruct (read_points_throws_at pre post l fin v _ Hpre Hl)
    as (_ & _ & _ & Hread).
  exact Hread.
Qed.

Lemma bad_bounds_rejected_witness :
  read_points_from_bed_file
    (mkFILE ([bed_line "chr1" "10" "20"] ++ bed_line "chr2" "7" "7" :: [])
            clean_eof)
  = Throw (runtime_error
             "Parsing BED file at line 2: interval bounds are invalid").
Proof.
  apply (bad_bounds_rejected (U := spec_utils)
           [bed_line "chr1" "10" "20"] [] (bed_line "chr2" "7" "7") 7 7
           clean_eof (mkLocals [] [5] "chr1")).
  - vm_compute. reflexivity.
  - vm_compute. reflexivity.
  - vm_compute. lia.
  - vm_compute. reflexivity.
  - vm_compute. reflexivity.
  - lia.
Defined.

(** ** What the body reads of a line *)

Section SameRecords.

Context {U : Utils}.

Lemma nth_firstn_below {A : Type} (n i : nat) (l : list A) (d : A) :
  (i < n)%nat -> nth i (firstn n l) d = nth i l d.
Proof.
  revert i l. induction n as [|n IH]; intros i l Hi; [lia|].
  destruct l as [|x l]; simpl; trivial.
  destruct i as [|i]; trivial. apply IH. lia.
Qed.

Lemma three_fields_firstn {A : Type} (l : list A) :
  (3 <=? List.length l)%nat = (List.length (firstn 3 l) =? 3)%nat.
Proof.
  rewrite length_firstn.
  destruct (Nat.leb_spec 3 (List.length l)); symmetry.
  - apply Nat.eqb_eq. lia.
  - apply Nat.eqb_neq. lia.
Qed.

Lemma same_record_process_line (l1 l2 : string) (v : Locals) :
  same_record l1 l2 -> process_line l1 v = process_line l2 v.
Proof.
  unfold same_record, is_comment, fields_of, process_line.
  intros [Hc Hf]. rewrite <- Hc.
  destruct (starts_with "#" (trim_ws l1)); trivial.
  specialize (Hf eq_refl).
  rewrite !three_fields_firstn, <- Hf.
  rewrite <- (nth_firstn_below 3 0 (split tab (trim_ws l1))) by lia.
  rewrite <- (nth_firstn_below 3 1 (split tab (trim_ws l1))) by lia.
  rewrite <- (nth_firstn_below 3 2 (split tab (trim_ws l1))) by lia.
  rewrite <- (nth_firstn_below 3 0 (split tab (trim_ws l2))) by lia.
  rewrite <- (nth_firstn_below 3 1 (split tab (trim_ws l2))) by lia.
  rewrite <- (nth_firstn_below 3 2 (split tab (trim_ws l2))) by lia.
  now rewrite <- Hf.
Qed.

(** The loop on two sequences of lines that the body cannot tell apart. *)
Lemma while_read_same_records (lines1 lines2 : list string) (fin : stream_end) :
  Forall2 same_record lines1 lines2 ->
  forall reader1 reader2 v,
    lines_read_ reader1 = lines_read_ reader2 ->
    fst (while_read lines1 fin reader1 v) = fst (while_read lines2 fin reader2 v)
    /\ lines_read_ (snd (while_read lines1 fin reader1 v))
       = lines_read_ (snd (while_read lines2 fin reader2 v)).
Proof.
  induction 1 as [|l1 l2 lines1 lines2 Hl _ IH]; intros reader1 reader2 v Hr.
  - rewrite !while_read_nil. destruct fin; simpl; auto.
  - rewrite !while_read_cons, (same_record_process_line l1 l2 v Hl).
    destruct (process_line l2 v) as [v'| |].
    + apply IH. rewrite !lines_read_after_line. now rewrite Hr.
    + simpl. rewrite Hr. auto.
    + simpl. rewrite Hr. auto.
Qed.

Lemma process_line_undefined (l : string) (v : Locals) :
  process_line l v = Undefined ->
  exists region_name a b, data_line l region_name a b /\ int_max < b - a.
Proof.
  unfold process_line.
  destruct (starts_with "#"%char (trim_ws l)) eqn:Hc; [discriminate|].
  destruct (3 <=? List.length (split tab (trim_ws l)))%nat eqn:H3;
    simpl; [|discriminate].
  unfold parse_int_or_throw.
  destruct (parse_int (nth 1 _ "") _) as [a|] eqn:H1; simpl; [|discriminate].
  destruct (parse_int (nth 2 _ "") _) as [b|] eqn:H2; simpl; [|discriminate].
  destruct (a <? b) eqn:Hab; simpl; [|discriminate].
  destruct (start_region _ v) as [v1| |] eqn:Hs; simpl; try discriminate.
  - unfold int_sub. destruct (representable (b - a)) eqn:Hr; simpl;
      [discriminate|].
    intros _. exists (nth 0 (split tab (trim_ws l)) ""), a, b.
    apply Z.ltb_lt in Hab. split.
    + constructor; trivial. now apply Nat.leb_le.
    + unfold representable, int_min in Hr.
      assert (0 < 2 ^ (Z.pos int_bits - 1)) by (apply Z.pow_pos_nonneg; lia).
      apply andb_false_iff in Hr. destruct Hr as [Hr|Hr].
      * apply Z.leb_gt in Hr. lia.
      * now apply Z.leb_gt in Hr.
  - now destruct (start_region_defined _ _ Hs).
Qed.

Lemma fold_lines_undefined (lines : list string) (v : Locals) :
  fold_lines lines v = Undefined ->
  exists l, In l lines
    /\ exists region_name a b, data_line l region_name a b /\ int_max < b - a.
Proof.
  revert v. induction lines as [|l lines IH]; intros v Hf; simpl in Hf;
    [discriminate|].
  destruct (process_line l v) as [v'| |] eqn:Hl; simpl in Hf;
    try discriminate.
  - destruct (IH v' Hf) as (l' & Hin & H). exists l'. split; trivial.
    now right.
  - exists l. split; [now left|]. now apply process_line_undefined with v.
Qed.

End SameRecords.

(** X17. The outcome depends on a line only through whether it is a
    comment and, when it is not, through its first three fields: further
    columns, and the text of comments, have no influence on the result or
    on the error. *)
Theorem same_records_same_outcome {U : Utils} (lines1 lines2 : list string)
    (fin : stream_end) :
  Forall2 same_record lines1 lines2 ->
  read_points_from_bed_file (mkFILE lines1 fin)
  = read_points_from_bed_file (mkFILE lines2 fin).
Proof.
  intros Hsame. unfold read_points_from_bed_file. simpl.
  destruct (while_read_same_records lines1 lines2 fin Hsame
              new_reader new_reader initial_locals eq_refl) as [Ho Hr].
  destruct (while_read lines1 fin new_reader initial_locals) as [o1 r1].
  destruct (while_read lines2 fin new_reader initial_locals) as [o2 r2].
  simpl in Ho, Hr. subst o2.
  unfold current_line_number. now rewrite Hr.
Qed.

Lemma same_records_same_outcome_witness :
  read_points_from_bed_file
    (mkFILE ["chr1" ++ TAB ++ "10" ++ TAB ++ "20" ++ TAB ++ "peak" ++ TAB
               ++ "0" ++ TAB ++ "+" ++ LF;
             "# first" ++ LF;
             "chr2" ++ TAB ++ "9" ++ TAB ++ "5" ++ TAB ++ "score" ++ LF]
            clean_eof)
  = read_points_from_bed_file
      (mkFILE [bed_line "chr1" "10" "20";
               "#" ++ LF;
               bed_line "chr2" "9" "5"] clean_eof).
Proof.
  apply (same_records_same_outcome (U := spec_utils)).
  constructor; [|constructor; [|constructor; [|constructor]]];
    (split; [vm_compute; reflexivity|]; intros Hc; vm_compute in Hc;
     first [discriminate Hc | vm_compute; reflexivity]).
Defined.

(** X18. Undefined behaviour comes from one place only: a data line that
    passed every check and whose width [end - start] is above the largest
    value of the integer type. *)
Theorem undefined_only_on_overflow {U : Utils} (file : FILE) :
  read_points_from_bed_file file = Undefined ->
  exists l, In l (pending file)
    /\ exists region_name a b, data_line l region_name a b /\ int_max < b - a.
Proof.
  intros Hread. apply fold_lines_undefined with initial_locals.
  unfold read_points_from_bed_file in Hread.
  pose proof (while_read_outcome (pending file) (finish file)
                new_reader initial_locals) as Ho.
  destruct (while_read _ _ _ _) as [[v|e|] reader]; simpl in Ho.
  - discriminate.
  - destruct (is_runtime_error e); discriminate.
  - destruct (fold_lines (pending file) initial_locals); trivial.
    + destruct (finish file); discriminate.
    + discriminate.
Qed.

Lemma undefined_only_on_overflow_witness :
  exists l, In l (pending overflow_file)
    /\ exists region_name a b,
         data_line l region_name a b /\ int_max < b - a.
Proof.
  apply (undefined_only_on_overflow (U := spec_utils) overflow_file).
  vm_compute. reflexivity.
Defined.
